(** * batchio: writers that batch small writes together

    A shallow embedding of [batchio/writer.go]: the blocking [Writer] and the
    non-blocking [DeadlineBufWriter], each with its flusher goroutine, and the
    properties of their flush logic.

    Modelling conventions.
    - [[]byte] is [list byte]; [len] is a [Z], as are the [int]s returned by
      the sink and the [maxSize] threshold (they are only compared, never
      added, so no wrap-around arises).
    - A Go [error] is [option error]: [None] is [nil].
    - The underlying [io.Writer] is an interface value: a receiver state
      together with its [Write] method and, when its dynamic type also
      implements [io.Closer], its [Close] method.
    - Statements executed under [w.mutex] (or [w.condM]) form one atomic
      action.  A goroutine is a program counter; the scheduler is a list of
      actions, one per atomic step.
    - The model keeps a ghost [trace] of the bytes appended to the buffer and
      of the calls made on the sink; it is never read by the code. *)

From Stdlib Require Import ZArith List Lia String.
From Stdlib Require Import Strings.Byte.
From stdpp Require Import base option list.

Local Open Scope Z_scope.

(** ** Common vocabulary *)

Abbreviation bytes := (list byte).

(** [len(p)] *)
Definition len (p : bytes) : Z := Z.of_nat (length p).

(** Go [error] values.  [ErrShortWrite] is the package variable
    [errors.New("short write")]; any other error is identified by its
    message. *)
Inductive error : Type :=
| ErrShortWrite
| errorString (msg : string).

(** An [io.Writer] interface value. *)
Record io_Writer (S : Type) : Type := mk_io_Writer {
  io_state : S;
  io_Write : bytes -> S -> Z * option error * S;
  (** [Some] when the dynamic type also implements [io.Closer] *)
  io_Close : option (S -> option error * S)
}.
Arguments mk_io_Writer {S} _ _ _.
Arguments io_state {S} _.
Arguments io_Write {S} _ _ _.
Arguments io_Close {S} _.

Definition io_with_state {S} (k : io_Writer S) (s : S) : io_Writer S :=
  mk_io_Writer s (io_Write k) (io_Close k).

(** [n, err = k.Write(p)] *)
Definition call_Write {S} (k : io_Writer S) (p : bytes)
  : Z * option error * io_Writer S :=
  let '(n, err, s) := io_Write k p (io_state k) in (n, err, io_with_state k s).

(** Ghost events. *)
Inductive event : Type :=
| EvAppend (p : bytes)                                (* append(w.buffer, p...) *)
| EvSinkWrite (p : bytes) (n : Z) (err : option error) (* w.writer.Write(p) = n, err *)
| EvSinkClose (err : option error).                    (* wc.Close() = err *)

(** The arguments of the sink's [Write] calls, oldest first. *)
Fixpoint sink_calls (tr : list event) : list bytes :=
  match tr with
  | [] => []
  | EvSinkWrite p _ _ :: tr => p :: sink_calls tr
  | _ :: tr => sink_calls tr
  end.

(** The payloads appended to the buffer, oldest first. *)
Fixpoint payloads (tr : list event) : list bytes :=
  match tr with
  | [] => []
  | EvAppend p :: tr => p :: payloads tr
  | _ :: tr => payloads tr
  end.

(** How often the sink's [Close] was called. *)
Fixpoint sink_closes (tr : list event) : nat :=
  match tr with
  | [] => O
  | EvSinkClose _ :: tr => S (sink_closes tr)
  | _ :: tr => sink_closes tr
  end.

(** A sink call the blocking flusher treats as a success: no error and at
    least [len(p)] bytes written. *)
Definition call_succeeded (p : bytes) (n : Z) (err : option error) : bool :=
  match err with
  | Some _ => false
  | None => negb (n <? len p)
  end.


(** Result of an atomic action. *)
Inductive outcome (A : Type) : Type :=
| Ok (a : A)
| Blocked   (* the action cannot fire here: the goroutine is not at that
               statement, or it is and the channel operation cannot proceed *)
| Panic.    (* run-time panic (send on, or close of, a closed channel) *)
Arguments Ok {A} _.
Arguments Blocked {A}.
Arguments Panic {A}.

#[export] Instance outcome_bind : MBind outcome := fun A B f o =>
  match o with
  | Ok a => f a
  | Blocked => Blocked
  | Panic => Panic
  end.

(** What [Write] returns once the error of its flush is known:
    [if err != nil { return 0, err }; return len(p), nil]. *)
Definition Write_result (p : bytes) (err : option error) : Z * option error :=
  match err with
  | Some e => (0, Some e)
  | None => (len p, None)
  end.

(** ** The non-blocking writer *)

Module DeadlineBufWriter.

(** Where the flusher goroutine stands. *)
Inductive pc : Type :=
| AtRange            (* for _ = range w.notify *)
| AtSleep            (* time.Sleep(w.timeout), then w.mutex.Lock() *)
| AtSend (e : error) (* w.errors <- err *)
| Exited.

Record t (S : Type) : Type := mk {
  writer : io_Writer S;
  buffer : bytes;
  timeout : Z;
  maxSize : Z;
  notify : bool;          (* chan struct{} of capacity 1: holds a token *)
  notify_closed : bool;   (* close(w.notify) has run *)
  errors : option error;  (* chan error of capacity 1 *)
  flusher_pc : pc;
  trace : list event
}.
Arguments mk {S} _ _ _ _ _ _ _ _ _.
Arguments writer {S} _.
Arguments buffer {S} _.
Arguments timeout {S} _.
Arguments maxSize {S} _.
Arguments notify {S} _.
Arguments notify_closed {S} _.
Arguments errors {S} _.
Arguments flusher_pc {S} _.
Arguments trace {S} _.

Section Methods.
Context {S : Type}.
Local Abbreviation t := (t S).

Definition set_writer (k : io_Writer S) (w : t) : t :=
  mk k (buffer w) (timeout w) (maxSize w) (notify w) (notify_closed w)
     (errors w) (flusher_pc w) (trace w).
Definition set_buffer (b : bytes) (w : t) : t :=
  mk (writer w) b (timeout w) (maxSize w) (notify w) (notify_closed w)
     (errors w) (flusher_pc w) (trace w).
Definition set_notify (b : bool) (w : t) : t :=
  mk (writer w) (buffer w) (timeout w) (maxSize w) b (notify_closed w)
     (errors w) (flusher_pc w) (trace w).
Definition set_notify_closed (b : bool) (w : t) : t :=
  mk (writer w) (buffer w) (timeout w) (maxSize w) (notify w) b
     (errors w) (flusher_pc w) (trace w).
Definition set_errors (e : option error) (w : t) : t :=
  mk (writer w) (buffer w) (timeout w) (maxSize w) (notify w) (notify_closed w)
     e (flusher_pc w) (trace w).
Definition set_pc (l : pc) (w : t) : t :=
  mk (writer w) (buffer w) (timeout w) (maxSize w) (notify w) (notify_closed w)
     (errors w) l (trace w).
Definition log (ev : event) (w : t) : t :=
  mk (writer w) (buffer w) (timeout w) (maxSize w) (notify w) (notify_closed w)
     (errors w) (flusher_pc w) (trace w ++ [ev]).

(** [NewDeadlineBufWriter(w, timeout, maxSize)]; the flusher goroutine starts
    at its loop head. *)
Definition NewDeadlineBufWriter (k : io_Writer S) (timeout maxSize : Z) : t :=
  mk k [] timeout maxSize false false None AtRange [].

(** [flushLocked]: the caller holds [w.mutex]. *)
Definition flushLocked (w : t) : option error * t :=
  if len (buffer w) =? 0 then (None, w)
  else
    let '(n, err, k) := call_Write (writer w) (buffer w) in
    let err' := if negb (n =? len (buffer w)) then Some ErrShortWrite else err in
    (err', set_buffer [] (set_writer k (log (EvSinkWrite (buffer w) n err) w))).

(** [w.buffer = append(w.buffer, p...)] *)
Definition append (p : bytes) (w : t) : t :=
  log (EvAppend p) (set_buffer (buffer w ++ p) w).

(** [Write(p)].  The receive from [w.errors] and the locked section are run
    as one action. *)
Definition Write (p : bytes) (w : t) : outcome (Z * option error * t) :=
  match errors w with
  | Some e => Ok (0, Some e, set_errors None w)
  | None =>
      let w1 := append p w in
      if len (buffer w1) >? maxSize w1 then
        let '(err, w2) := flushLocked w1 in
        Ok (Write_result p err, w2)
      else if notify_closed w1 then Panic        (* send on closed channel *)
      else Ok (len p, None, set_notify true w1)
  end.

(** [Close()].  The source calls [flushLocked] here without taking
    [w.mutex]; the call is run as one action all the same. *)
Definition Close (w : t) : outcome (option error * t) :=
  match errors w with
  | Some e => Ok (Some e, set_errors None w)
  | None =>
      let '(err, w1) := flushLocked w in
      match err with
      | Some e => Ok (Some e, w1)
      | None =>
          if notify_closed w1 then Panic         (* close of closed channel *)
          else
            let w2 := set_notify_closed true w1 in
            match io_Close (writer w2) with
            | Some close =>
                let '(r, s) := close (io_state (writer w2)) in
                Ok (r, set_writer (io_with_state (writer w2) s)
                                  (log (EvSinkClose r) w2))
            | None => Ok (None, w2)
            end
      end
  end.

(** The atomic steps of [flusher()]. *)
Inductive flusher_step : Type :=
| Recv    (* one iteration of [range w.notify] begins, or the loop ends *)
| Flush   (* the sleep is over: Lock; flushLocked; Unlock *)
| Send.   (* w.errors <- err *)

Definition flusher (l : flusher_step) (w : t) : outcome t :=
  match l, flusher_pc w with
  | Recv, AtRange =>
      if notify w then Ok (set_pc AtSleep (set_notify false w))
      else if notify_closed w then Ok (set_pc Exited w)
      else Blocked
  | Flush, AtSleep =>
      let '(err, w1) := flushLocked w in
      match err with
      | Some e => Ok (set_pc (AtSend e) w1)
      | None => Ok (set_pc AtRange w1)
      end
  | Send, AtSend e =>
      match errors w with
      | None => Ok (set_pc AtRange (set_errors (Some e) w))
      | Some _ => Blocked                        (* the channel is full *)
      end
  | _, _ => Blocked
  end.

(** Scheduler actions. *)
Inductive action : Type :=
| DoWrite (p : bytes)
| DoClose
| DoFlusher (l : flusher_step).

Definition step (a : action) (w : t) : outcome t :=
  match a with
  | DoWrite p => r ← Write p w; Ok (snd r)
  | DoClose => r ← Close w; Ok (snd r)
  | DoFlusher l => flusher l w
  end.

Fixpoint run (sched : list action) (w : t) : outcome t :=
  match sched with
  | [] => Ok w
  | a :: sched => w1 ← step a w; run sched w1
  end.

End Methods.
End DeadlineBufWriter.

(** ** The blocking writer *)

Module Writer.

(** Where the flusher goroutine stands. *)
Inductive pc : Type :=
| AtSelect      (* select { case <-w.quit: ... case <-w.notify: ... } *)
| AtCheck       (* if w.bufferSize() < w.maxSize *)
| AtSleep       (* time.Sleep(w.timeout) *)
| AtLock        (* w.mutex.Lock() ... w.mutex.Unlock() *)
| AtBroadcast   (* w.condM.Lock(); w.cond.Broadcast(); w.condM.Unlock() *)
| Exited.

(** Where a [Write(p)] call stands. *)
Inductive call : Type :=
| AtAppend (p : bytes)   (* w.mutex.Lock(); append; w.mutex.Unlock() *)
| AtSignal (p : bytes)   (* w.condM.Lock(); select on w.notify; w.cond.Wait() *)
| Waiting (p : bytes)    (* parked inside w.cond.Wait() *)
| Woken (p : bytes)      (* err = w.err; w.condM.Unlock() *)
| Returned (p : bytes) (n : Z) (err : option error).

Record t (S : Type) : Type := mk {
  writer : io_Writer S;
  timeout : Z;
  maxSize : Z;
  buffer : bytes;
  notify : bool;          (* chan struct{} of capacity 1: holds a token *)
  quit : bool;            (* close(w.quit) has run *)
  err : option error;
  calls : list call;      (* the Write calls made so far *)
  flusher_pc : pc;
  trace : list event
}.
Arguments mk {S} _ _ _ _ _ _ _ _ _ _.
Arguments writer {S} _.
Arguments timeout {S} _.
Arguments maxSize {S} _.
Arguments buffer {S} _.
Arguments notify {S} _.
Arguments quit {S} _.
Arguments err {S} _.
Arguments calls {S} _.
Arguments flusher_pc {S} _.
Arguments trace {S} _.

Section Methods.
Context {S : Type}.
Local Abbreviation t := (t S).

Definition set_writer (k : io_Writer S) (w : t) : t :=
  mk k (timeout w) (maxSize w) (buffer w) (notify w) (quit w) (err w)
     (calls w) (flusher_pc w) (trace w).
Definition set_buffer (b : bytes) (w : t) : t :=
  mk (writer w) (timeout w) (maxSize w) b (notify w) (quit w) (err w)
     (calls w) (flusher_pc w) (trace w).
Definition set_notify (b : bool) (w : t) : t :=
  mk (writer w) (timeout w) (maxSize w) (buffer w) b (quit w) (err w)
     (calls w) (flusher_pc w) (trace w).
Definition set_quit (b : bool) (w : t) : t :=
  mk (writer w) (timeout w) (maxSize w) (buffer w) (notify w) b (err w)
     (calls w) (flusher_pc w) (trace w).
Definition set_err (e : option error) (w : t) : t :=
  mk (writer w) (timeout w) (maxSize w) (buffer w) (notify w) (quit w) e
     (calls w) (flusher_pc w) (trace w).
Definition set_calls (cs : list call) (w : t) : t :=
  mk (writer w) (timeout w) (maxSize w) (buffer w) (notify w) (quit w) (err w)
     cs (flusher_pc w) (trace w).
Definition set_pc (l : pc) (w : t) : t :=
  mk (writer w) (timeout w) (maxSize w) (buffer w) (notify w) (quit w) (err w)
     (calls w) l (trace w).
Definition log (ev : event) (w : t) : t :=
  mk (writer w) (timeout w) (maxSize w) (buffer w) (notify w) (quit w) (err w)
     (calls w) (flusher_pc w) (trace w ++ [ev]).

(** [NewWriter(w, timeout, maxSize)]; the flusher goroutine starts at its
    [select]. *)
Definition NewWriter (k : io_Writer S) (timeout maxSize : Z) : t :=
  mk k timeout maxSize [] false false None [] AtSelect [].

Definition Timeout (w : t) : Z := timeout w.
Definition MaxSize (w : t) : Z := maxSize w.

Definition bufferSize (w : t) : Z := len (buffer w).

(** One atomic step of a [Write(p)] call. *)
Definition Write (c : call) (w : t) : outcome (call * t) :=
  match c with
  | AtAppend p =>
      Ok (AtSignal p, log (EvAppend p) (set_buffer (buffer w ++ p) w))
  | AtSignal p =>
      (* non-blocking send: a token is queued unless one already is *)
      Ok (Waiting p, set_notify true w)
  | Waiting _ => Blocked
  | Woken p =>
      let '(n, e) := Write_result p (err w) in Ok (Returned p n e, w)
  | Returned _ _ _ => Blocked
  end.

(** [Close()] *)
Definition Close (w : t) : outcome (option error * t) :=
  if quit w then Panic                           (* close of closed channel *)
  else
    let w1 := set_quit true w in
    match io_Close (writer w1) with
    | Some close =>
        let '(r, s) := close (io_state (writer w1)) in
        Ok (r, set_writer (io_with_state (writer w1) s) (log (EvSinkClose r) w1))
    | None => Ok (None, w1)
    end.

(** The locked section of [flusher()]. *)
Definition flush (w : t) : t :=
  let '(n, e, w1) :=
    if len (buffer w) >? 0 then
      let '(n, e, k) := call_Write (writer w) (buffer w) in
      (n, e, set_writer k (log (EvSinkWrite (buffer w) n e) w))
    else (0, None, w) in
  match e with
  | Some e => set_err (Some e) w1
  | None =>
      if n <? len (buffer w1) then set_err (Some ErrShortWrite) w1
      else set_buffer [] w1
  end.

(** [w.cond.Broadcast()]: every parked call is made runnable. *)
Definition wake (c : call) : call :=
  match c with
  | Waiting p => Woken p
  | _ => c
  end.

(** The atomic steps of [flusher()]. *)
Inductive flusher_step : Type :=
| RecvQuit    (* the select receives from w.quit *)
| Recv        (* the select receives from w.notify *)
| SizeCheck   (* the size test that decides on the sleep *)
| Wake        (* the sleep is over *)
| Flush       (* the locked section *)
| Broadcast.  (* the waiters are woken *)

Definition flusher (l : flusher_step) (w : t) : outcome t :=
  match l, flusher_pc w with
  | RecvQuit, AtSelect =>
      if quit w then Ok (set_pc Exited w) else Blocked
  | Recv, AtSelect =>
      if notify w then Ok (set_pc AtCheck (set_notify false w)) else Blocked
  | SizeCheck, AtCheck =>
      if bufferSize w <? maxSize w then Ok (set_pc AtSleep w)
      else Ok (set_pc AtLock w)
  | Wake, AtSleep => Ok (set_pc AtLock w)
  | Flush, AtLock => Ok (set_pc AtBroadcast (flush w))
  | Broadcast, AtBroadcast =>
      Ok (set_pc AtSelect (set_calls (wake <$> calls w) w))
  | _, _ => Blocked
  end.

(** Scheduler actions. *)
Inductive action : Type :=
| Call (p : bytes)          (* a goroutine enters Write(p) *)
| Go (i : nat)              (* the i-th call takes its next step *)
| DoClose
| DoFlusher (l : flusher_step).

Definition step (a : action) (w : t) : outcome t :=
  match a with
  | Call p => Ok (set_calls (calls w ++ [AtAppend p]) w)
  | Go i =>
      match calls w !! i with
      | Some c => r ← Write c w; Ok (set_calls (<[i := fst r]> (calls (snd r))) (snd r))
      | None => Blocked
      end
  | DoClose => r ← Close w; Ok (snd r)
  | DoFlusher l => flusher l w
  end.

Fixpoint run (sched : list action) (w : t) : outcome t :=
  match sched with
  | [] => Ok w
  | a :: sched => w1 ← step a w; run sched w1
  end.

End Methods.
End Writer.

(** ** Sinks *)

(** The sink and the data of the package's tests. *)
Module writer_test.

Record countingWriter : Type := mk_countingWriter {
  nWrites : Z;                (* uint, taken as 64 bits wide *)
  err : option error
}.

(** [n++] on a [uint] *)
Definition uint_incr (n : Z) : Z := if n + 1 =? 2 ^ 64 then 0 else n + 1.

Definition countingWriter_Write (p : bytes) (w : countingWriter)
  : Z * option error * countingWriter :=
  match err w with
  | Some e => (0, Some e, w)
  | None => (len p, None, mk_countingWriter (uint_incr (nWrites w)) (err w))
  end.

(** [cw = &countingWriter{}], with [cw.err] set to [e] *)
Definition cw (e : option error) : io_Writer countingWriter :=
  mk_io_Writer (mk_countingWriter 0 e) countingWriter_Write None.

Definition maxSize : Z := 32.
Definition smallData : bytes := repeat "x"%byte (Z.to_nat (maxSize / 10)).
Definition bigData : bytes := repeat "x"%byte (Z.to_nat (maxSize * 2)).

(** [fmt.Errorf("Neh")] *)
Definition Neh : error := errorString "Neh".

End writer_test.

(** A sink whose first calls answer as scripted, and which accepts every
    write once the script is used up; it can be closed. *)
Definition scripted_Write (p : bytes) (script : list (Z * option error))
  : Z * option error * list (Z * option error) :=
  match script with
  | (n, e) :: script => (n, e, script)
  | [] => (len p, None, [])
  end.

Definition scripted (script : list (Z * option error))
  : io_Writer (list (Z * option error)) :=
  mk_io_Writer script scripted_Write (Some (fun s => (None, s))).

(** ** Schedules in which nothing is flushed *)

(** For the non-blocking writer: writes, and the flusher picking up its
    trigger; no flush by the flusher and no [Close]. *)
Definition quietD (a : DeadlineBufWriter.action) : bool :=
  match a with
  | DeadlineBufWriter.DoWrite _ => true
  | DeadlineBufWriter.DoFlusher DeadlineBufWriter.Recv => true
  | _ => false
  end.

(** For the blocking writer: everything but the flusher's locked section. *)
Definition quietW (a : Writer.action) : bool :=
  match a with
  | Writer.DoFlusher Writer.Flush => false
  | _ => true
  end.


(** The error a failed sink call leaves in [w.err] of the blocking writer. *)
Definition recorded (r : option error) : error :=
  match r with
  | Some e => e
  | None => ErrShortWrite
  end.



(** ** The scenarios of the tests, and a few more *)

(** [TestBatchSmallWrites]: five goroutines write [smallData]; the flusher
    picks up the trigger of the first and sleeps while the others arrive. *)
Definition five_writesW : list Writer.action :=
  [Writer.Call writer_test.smallData; Writer.Go 0; Writer.Go 0;
   Writer.DoFlusher Writer.Recv; Writer.DoFlusher Writer.SizeCheck;
   Writer.Call writer_test.smallData; Writer.Go 1; Writer.Go 1;
   Writer.Call writer_test.smallData; Writer.Call writer_test.smallData;
   Writer.Go 3; Writer.Go 2; Writer.Go 2; Writer.Go 3;
   Writer.Call writer_test.smallData; Writer.Go 4; Writer.Go 4;
   Writer.DoFlusher Writer.Wake]%nat.

(** [TestBatchSmallWritesD] *)
Definition five_writesD : list DeadlineBufWriter.action :=
  [DeadlineBufWriter.DoWrite writer_test.smallData;
   DeadlineBufWriter.DoWrite writer_test.smallData;
   DeadlineBufWriter.DoFlusher DeadlineBufWriter.Recv;
   DeadlineBufWriter.DoWrite writer_test.smallData;
   DeadlineBufWriter.DoWrite writer_test.smallData;
   DeadlineBufWriter.DoWrite writer_test.smallData].

(** One full iteration of the blocking flusher, with its sleep. *)
Definition cycleW : list Writer.action :=
  [Writer.DoFlusher Writer.Recv; Writer.DoFlusher Writer.SizeCheck;
   Writer.DoFlusher Writer.Wake; Writer.DoFlusher Writer.Flush;
   Writer.DoFlusher Writer.Broadcast].

(** [Write(p)] as the [i]-th call, alone: it appends, signals and parks, the
    flusher runs one iteration, and the call returns. *)
Definition lone_writeW (i : nat) (p : bytes) : list Writer.action :=
  [Writer.Call p; Writer.Go i; Writer.Go i] ++ cycleW ++ [Writer.Go i].

(** One iteration of the non-blocking flusher up to its flush. *)
Definition cycleD : list DeadlineBufWriter.action :=
  [DeadlineBufWriter.DoFlusher DeadlineBufWriter.Recv;
   DeadlineBufWriter.DoFlusher DeadlineBufWriter.Flush].

Definition first : error := errorString "first".
Definition second : error := errorString "second".

(** Two writes, each picked up and flushed by the flusher while the sink
    fails; the second write arrives before the flusher has queued the first
    error.  (With a sink that reports its errors together with the full byte
    count, [flushLocked] returns them unchanged, which tells them apart.) *)
Definition two_failuresD : list DeadlineBufWriter.action :=
  [DeadlineBufWriter.DoWrite writer_test.smallData] ++ cycleD ++
  [DeadlineBufWriter.DoWrite writer_test.smallData;
   DeadlineBufWriter.DoFlusher DeadlineBufWriter.Send] ++ cycleD.

(** ** Vocabulary of the further properties *)



(** The error [e] is [ErrShortWrite], or some call of the sink's [Write] in
    the trace returned it. *)
Definition from_sink (e : error) (tr : list event) : Prop :=
  e = ErrShortWrite \/ exists p n, In (EvSinkWrite p n (Some e)) tr.

(** A call that arrives while the flusher of the blocking writer stands
    between its flush and its broadcast: it is made as the [i]-th call,
    appends, signals and parks, is woken by the broadcast and returns. *)
Definition late_callW (i : nat) (p : bytes) : list Writer.action :=
  [Writer.Call p; Writer.Go i; Writer.Go i;
   Writer.DoFlusher Writer.Broadcast; Writer.Go i].

(** What a [Write(p)] may return: all of [p] and no error, or nothing and an
    error. *)
Definition all_or_nothing (p : bytes) (n : Z) (e : option error) : Prop :=
  e = None /\ n = len p \/ is_Some e /\ n = 0.

(** Schedules of the blocking writer without a broadcast. *)
Definition no_broadcast (a : Writer.action) : bool :=
  match a with
  | Writer.DoFlusher Writer.Broadcast => false
  | _ => true
  end.


(** Blocking writer: a parked call has a broadcast ahead of it unless the
    flusher has exited: when the flusher is at its [select], a trigger is
    pending. *)
Definition no_lost_wakeup {S} (w : Writer.t S) : Prop :=
  forall i p,
    Writer.calls w !! i = Some (Writer.Waiting p) ->
    Writer.flusher_pc w = Writer.AtSelect ->
    Writer.notify w = true.

(** The [countingWriter] has counted the sink calls of the trace (as a
    [uint]), has no error set and is no [io.Closer]. *)
Definition counted (k : io_Writer writer_test.countingWriter) (tr : list event)
  : Prop :=
  io_Write k = writer_test.countingWriter_Write /\
  io_Close k = None /\
  writer_test.err (io_state k) = None /\
  writer_test.nWrites (io_state k)
    = Z.of_nat (length (sink_calls tr)) mod 2 ^ 64.

(** Blocking writer: the [i]-th call has returned [(n, r)] from [Write(p)],
    or has been woken and is about to return. *)
Definition past_the_wait {S} (w : Writer.t S) (i : nat) (p : bytes) (n : Z)
    (r : option error) : Prop :=
  Writer.calls w !! i = Some (Writer.Returned p n r) \/
  Writer.calls w !! i = Some (Writer.Woken p).

(** A run of the blocking writer in which three calls are parked and the
    flusher has flushed but not yet broadcast. *)
Definition three_parkedW : list Writer.action :=
  [Writer.Call writer_test.smallData; Writer.Call writer_test.bigData;
   Writer.Go 0; Writer.Go 0; Writer.Go 1; Writer.Go 1;
   Writer.DoFlusher Writer.Recv; Writer.DoFlusher Writer.SizeCheck;
   Writer.Call writer_test.smallData; Writer.Go 2; Writer.Go 2;
   Writer.DoFlusher Writer.Flush]%nat.

(** ** Facts about traces *)

Lemma len_nil_iff (p : bytes) : len p = 0 <-> p = [].
Proof.
  unfold len. destruct p as [|b p]; simpl; split; intros H; try done; lia.
Qed.

Lemma len_nonneg (p : bytes) : 0 <= len p.
Proof. unfold len. lia. Qed.

Lemma len_app (p q : bytes) : len (p ++ q) = len p + len q.
Proof. unfold len. rewrite length_app. lia. Qed.

Lemma sink_calls_app tr1 tr2 :
  sink_calls (tr1 ++ tr2) = sink_calls tr1 ++ sink_calls tr2.
Proof.
  induction tr1 as [|ev tr1 IH]; simpl; [done|].
  destruct ev; simpl; by rewrite IH.
Qed.

Lemma payloads_app tr1 tr2 :
  payloads (tr1 ++ tr2) = payloads tr1 ++ payloads tr2.
Proof.
  induction tr1 as [|ev tr1 IH]; simpl; [done|].
  destruct ev; simpl; by rewrite IH.
Qed.

Lemma sink_closes_app tr1 tr2 :
  sink_closes (tr1 ++ tr2) = (sink_closes tr1 + sink_closes tr2)%nat.
Proof.
  induction tr1 as [|ev tr1 IH]; simpl; [done|].
  destruct ev; simpl; by rewrite IH.
Qed.


(** ** The non-blocking writer: flushes and calls *)

Section DeadlineFacts.
Import DeadlineBufWriter.
Context {S : Type}.
Implicit Types (w : t S) (p : bytes) (e : error).

Lemma flushLocked_empty w : buffer w = [] -> flushLocked w = (None, w).
Proof. intros H. unfold flushLocked. by rewrite H. Qed.

Lemma flushLocked_nonempty w n err k :
  buffer w <> [] ->
  call_Write (writer w) (buffer w) = (n, err, k) ->
  flushLocked w =
    (if negb (n =? len (buffer w)) then Some ErrShortWrite else err,
     set_buffer [] (set_writer k (log (EvSinkWrite (buffer w) n err) w))).
Proof.
  intros Hne Hcall. unfold flushLocked.
  destruct (Z.eqb_spec (len (buffer w)) 0) as [H0|_].
  - by apply len_nil_iff in H0.
  - by rewrite Hcall.
Qed.

(** Whatever the sink answers, a flush leaves the buffer empty and the
    channels and the flusher untouched, and it extends the trace by at most
    the one sink call made on the old buffer. *)
Lemma flushLocked_frame w err w1 :
  flushLocked w = (err, w1) ->
  buffer w1 = [] /\ errors w1 = errors w /\ notify w1 = notify w /\
  notify_closed w1 = notify_closed w /\ flusher_pc w1 = flusher_pc w /\
  maxSize w1 = maxSize w /\ timeout w1 = timeout w /\
  io_Close (writer w1) = io_Close (writer w) /\
  (buffer w = [] /\ w1 = w /\ err = None \/
   buffer w <> [] /\ exists n r,
     trace w1 = trace w ++ [EvSinkWrite (buffer w) n r] /\
     err = if negb (n =? len (buffer w)) then Some ErrShortWrite else r).
Proof.
  intros H. destruct (decide (buffer w = [])) as [Hb|Hb].
  - rewrite flushLocked_empty in H by done. simplify_eq. naive_solver.
  - destruct (call_Write (writer w) (buffer w)) as [[n r] k] eqn:Hcall.
    rewrite (flushLocked_nonempty _ _ _ _ Hb Hcall) in H. simplify_eq. simpl.
    unfold call_Write in Hcall.
    destruct (io_Write _ _ _) as [[? ?] ?]. simplify_eq. simpl.
    repeat split; try done. right. eauto.
Qed.

Lemma Write_invD p w r w1 :
  Write p w = Ok (r, w1) ->
  (exists e, errors w = Some e /\ r = (0, Some e) /\ w1 = set_errors None w) \/
  (errors w = None /\ len (buffer w ++ p) > maxSize w /\
   exists err, flushLocked (append p w) = (err, w1) /\ r = Write_result p err) \/
  (errors w = None /\ len (buffer w ++ p) <= maxSize w /\
   notify_closed w = false /\ r = (len p, None) /\
   w1 = set_notify true (append p w)).
Proof.
  unfold Write. destruct (errors w) as [e|] eqn:He.
  - intros; simplify_eq. left. eauto.
  - simpl. destruct (Z.gtb_spec (len (buffer w ++ p)) (maxSize w)) as [Hgt|Hle].
    + destruct (flushLocked (append p w)) as [err w2] eqn:Hf.
      intros; simplify_eq. right; left. repeat split; [lia|]. eauto.
    + destruct (notify_closed w) eqn:Hc; intros; simplify_eq.
      right; right. repeat split; done.
Qed.

Lemma Close_invD w r w1 :
  Close w = Ok (r, w1) ->
  (exists e, errors w = Some e /\ r = Some e /\ w1 = set_errors None w) \/
  (errors w = None /\ exists e, flushLocked w = (Some e, w1) /\ r = Some e) \/
  (errors w = None /\ exists w0, flushLocked w = (None, w0) /\
   notify_closed w0 = false /\
   (io_Close (writer w0) = None /\ r = None /\ w1 = set_notify_closed true w0 \/
    exists close s, io_Close (writer w0) = Some close /\
      close (io_state (writer w0)) = (r, s) /\
      w1 = set_writer (io_with_state (writer w0) s)
             (log (EvSinkClose r) (set_notify_closed true w0)))).
Proof.
  unfold Close. destruct (errors w) as [e|] eqn:He.
  - intros; simplify_eq. left. eauto.
  - destruct (flushLocked w) as [[e|] w0] eqn:Hf.
    + intros; simplify_eq. right; left. eauto.
    + destruct (notify_closed w0) eqn:Hc; [done|]. simpl.
      destruct (io_Close (writer w0)) as [close|] eqn:Hcl.
      * destruct (close (io_state (writer w0))) as [r' s] eqn:Hr.
        intros; simplify_eq. right; right. split; [done|].
        exists w0. repeat split; try done. right. exists close, s. done.
      * intros; simplify_eq. right; right. split; [done|].
        exists w0. repeat split; try done. by left.
Qed.

Lemma flusher_invD l w w1 :
  flusher l w = Ok w1 ->
  (l = Recv /\ flusher_pc w = AtRange /\ notify w = true /\
   w1 = set_pc AtSleep (set_notify false w)) \/
  (l = Recv /\ flusher_pc w = AtRange /\ notify w = false /\
   notify_closed w = true /\ w1 = set_pc Exited w) \/
  (l = Flush /\ flusher_pc w = AtSleep /\ exists err w0,
     flushLocked w = (err, w0) /\
     w1 = set_pc (match err with Some e => AtSend e | None => AtRange end) w0) \/
  (l = Send /\ errors w = None /\ exists e, flusher_pc w = AtSend e /\
     w1 = set_pc AtRange (set_errors (Some e) w)).
Proof.
  unfold flusher. destruct l, (flusher_pc w) eqn:Hpc; try done.
  - destruct (notify w) eqn:Hn; [intros; simplify_eq; by left|].
    destruct (notify_closed w) eqn:Hc; [|done].
    intros; simplify_eq. right; left. done.
  - destruct (flushLocked w) as [err w0] eqn:Hf.
    intros Hw1. right; right; left. repeat split; try done.
    exists err, w0. split; [done|]. destruct err; by simplify_eq.
  - destruct (errors w) eqn:He; [done|]. intros; simplify_eq.
    right; right; right. repeat split; try done. eauto.
Qed.

(** An invariant of every step is an invariant of every run. *)
Lemma run_invariantD (P : t S -> Prop) :
  (forall a w w1, P w -> step a w = Ok w1 -> P w1) ->
  forall sched w w1, P w -> run sched w = Ok w1 -> P w1.
Proof.
  intros Hstep sched. induction sched as [|a sched IH]; intros w w1 HP; simpl.
  - intros; by simplify_eq.
  - destruct (step a w) as [w0| |] eqn:Ha; simpl; try done. eauto.
Qed.

End DeadlineFacts.

(** ** The non-blocking writer: invariants of runs *)

Section DeadlineRuns.
Import DeadlineBufWriter.
Context {S : Type}.
Implicit Types (w : t S) (p : bytes) (e : error).

Lemma step_invD a w w1 :
  step a w = Ok w1 ->
  (exists p r, a = DoWrite p /\ Write p w = Ok (r, w1)) \/
  (exists r, a = DoClose /\ Close w = Ok (r, w1)) \/
  (exists l, a = DoFlusher l /\ flusher l w = Ok w1).
Proof.
  destruct a as [p| |l]; simpl.
  - destruct (Write p w) as [[r w0]| |] eqn:H; simpl; try done.
    intros; simplify_eq. left. eauto.
  - destruct (Close w) as [[r w0]| |] eqn:H; simpl; try done.
    intros; simplify_eq. right; left. eauto.
  - intros. right; right. eauto.
Qed.

(** A property of the trace and the buffer that survives an append, a flush
    and a call of the sink's [Close] survives every step. *)
Lemma step_preservesD (P : list event -> bytes -> Prop) :
  (forall tr b p, P tr b -> P (tr ++ [EvAppend p]) (b ++ p)) ->
  (forall tr b n r, P tr b -> b <> [] -> P (tr ++ [EvSinkWrite b n r]) []) ->
  (forall tr b r, P tr b -> P (tr ++ [EvSinkClose r]) b) ->
  forall a w w1,
    P (trace w) (buffer w) -> step a w = Ok w1 -> P (trace w1) (buffer w1).
Proof.
  intros Happ Hflush Hclose.
  assert (Hfl : forall w err w1, P (trace w) (buffer w) ->
            flushLocked w = (err, w1) -> P (trace w1) (buffer w1)).
  { intros w err w1 HP Hf.
    destruct (flushLocked_frame _ _ _ Hf) as (Hb & _ & _ & _ & _ & _ & _ & _ & Hc).
    destruct Hc as [(_ & -> & _)|(Hne & n & r & Htr & _)]; [done|].
    rewrite Hb, Htr. by apply Hflush. }
  intros a w w1 HP Hstep.
  destruct (step_invD _ _ _ Hstep) as [(p & r & -> & H)|[(r & -> & H)|(l & -> & H)]].
  - destruct (Write_invD _ _ _ _ H) as [(e & _ & _ & ->)|[(_ & _ & err & Hf & _)|(_ & _ & _ & _ & ->)]].
    + done.
    + eapply Hfl; [|done]. simpl. by apply Happ.
    + simpl. by apply Happ.
  - destruct (Close_invD _ _ _ H) as [(e & _ & _ & ->)|[(_ & e & Hf & _)|(_ & w0 & Hf & _ & Hc)]].
    + done.
    + by eapply Hfl.
    + specialize (Hfl _ _ _ HP Hf).
      destruct Hc as [(_ & _ & ->)|(close & s & _ & _ & ->)]; simpl; [done|].
      by apply Hclose.
  - destruct (flusher_invD _ _ _ H) as [(_ & _ & _ & ->)|[(_ & _ & _ & _ & ->)|[(_ & _ & err & w0 & Hf & ->)|(_ & _ & e & _ & ->)]]]; simpl; try done.
    by eapply Hfl.
Qed.



(** The flusher never takes an error out of the channel. *)
Lemma flusher_keeps_error l w w1 e :
  errors w = Some e -> flusher l w = Ok w1 -> errors w1 = Some e.
Proof.
  intros He H.
  destruct (flusher_invD _ _ _ H) as [(_ & _ & _ & ->)|[(_ & _ & _ & _ & ->)|[(_ & _ & err & w0 & Hf & ->)|(_ & Hn & _)]]]; simpl; try done.
  - destruct (flushLocked_frame _ _ _ Hf) as (_ & Herr & _). congruence.
  - congruence.
Qed.

(** The trace only grows. *)
Lemma step_traceD a w w1 :
  step a w = Ok w1 -> exists tr, trace w1 = trace w ++ tr.
Proof.
  intros H.
  apply (step_preservesD (fun tr _ => exists tr', tr = trace w ++ tr')) with (a := a) (w := w).
  - intros tr b p [tr' ->]. exists (tr' ++ [EvAppend p]). by rewrite app_assoc.
  - intros tr b n r [tr' ->] _. eexists. by rewrite <- app_assoc.
  - intros tr b r [tr' ->]. eexists. by rewrite <- app_assoc.
  - exists []. by rewrite app_nil_r.
  - done.
Qed.

Lemma run_traceD sched w w1 :
  run sched w = Ok w1 -> exists tr, trace w1 = trace w ++ tr.
Proof.
  revert w. induction sched as [|a sched IH]; intros w; simpl.
  - intros; simplify_eq. exists []. by rewrite app_nil_r.
  - destruct (step a w) as [w0| |] eqn:Ha; simpl; try done.
    intros Hrun. destruct (step_traceD _ _ _ Ha) as [tr1 H1].
    destruct (IH _ Hrun) as [tr2 H2]. exists (tr1 ++ tr2).
    by rewrite H2, H1, app_assoc.
Qed.

(** While nothing is flushed and the appended bytes fit below the threshold,
    the buffer is what it was followed by the payloads appended, in order,
    and the sink is not called. *)
Lemma quiet_runD sched w w1 ps :
  Forall (fun a => quietD a = true) sched ->
  run sched w = Ok w1 ->
  payloads (trace w1) = payloads (trace w) ++ ps ->
  len (buffer w ++ concat ps) <= maxSize w ->
  buffer w1 = buffer w ++ concat ps /\
  sink_calls (trace w1) = sink_calls (trace w) /\
  maxSize w1 = maxSize w.
Proof.
  intros Hq. revert w ps.
  induction Hq as [|a sched Ha Hq IH]; intros w ps; simpl.
  - intros ? Hps Hlen; simplify_eq.
    assert (ps = []) as ->.
    { apply (f_equal length) in Hps. rewrite length_app in Hps.
      destruct ps; simpl in *; [done|lia]. }
    simpl. by rewrite app_nil_r.
  - destruct (step a w) as [w0| |] eqn:Hstep; simpl; try done.
    intros Hrun Hps Hlen.
    destruct (run_traceD _ _ _ Hrun) as [tr Htr].
    destruct (step_invD _ _ _ Hstep) as [(p & r & -> & H)|[(r & -> & H)|(l & -> & H)]];
      [| done |].
    + destruct (Write_invD _ _ _ _ H) as [(e & _ & _ & ->)|[(_ & Hgt & err & Hf & _)|(_ & _ & _ & _ & ->)]].
      * by destruct (IH (set_errors None w) ps Hrun Hps Hlen).
      * exfalso.
        destruct (flushLocked_frame _ _ _ Hf) as (_ & _ & _ & _ & _ & _ & _ & _ & Hc).
        assert (exists tr0, trace w0 = (trace w ++ [EvAppend p]) ++ tr0) as [tr0 H0].
        { destruct Hc as [(_ & -> & _)|(_ & n & r0 & -> & _)]; simpl.
          - exists []. by rewrite app_nil_r.
          - eauto. }
        rewrite Htr, H0, !payloads_app in Hps. simpl in Hps.
        rewrite <- !app_assoc in Hps. apply app_inv_head in Hps. simpl in Hps.
        subst ps. simpl in Hlen. rewrite app_assoc, len_app in Hlen.
        pose proof (len_nonneg (concat (payloads tr0 ++ payloads tr))). lia.
      * rewrite Htr in Hps. simpl in Hps. rewrite !payloads_app in Hps.
        simpl in Hps. rewrite <- !app_assoc in Hps. apply app_inv_head in Hps.
        simpl in Hps. subst ps.
        destruct (IH (set_notify true (append p w)) (payloads tr) Hrun)
          as (Hb & Hs & Hm).
        { rewrite Htr, payloads_app. done. }
        { simpl. simpl in Hlen. by rewrite <- app_assoc. }
        simpl in *. rewrite sink_calls_app in Hs. simpl in Hs.
        rewrite app_nil_r in Hs. rewrite <- app_assoc in Hb. done.
    + destruct l; try done.
      destruct (flusher_invD _ _ _ H) as [(_ & _ & _ & ->)|[(_ & _ & _ & _ & ->)|[(? & _)|(? & _)]]]; try done.
      * by destruct (IH (set_pc AtSleep (set_notify false w)) ps Hrun Hps Hlen).
      * by destruct (IH (set_pc Exited w) ps Hrun Hps Hlen).
Qed.

End DeadlineRuns.

(** ** The blocking writer: flushes and runs *)

Section WriterFacts.
Import Writer.
Context {S : Type}.
Implicit Types (w : t S) (p : bytes) (e : error).

Lemma flush_empty w : buffer w = [] -> flush w = w.
Proof. intros H. destruct w; simpl in *; subst. reflexivity. Qed.

Lemma flush_nonempty w n r k :
  buffer w <> [] ->
  call_Write (writer w) (buffer w) = (n, r, k) ->
  flush w =
    let w1 := set_writer k (log (EvSinkWrite (buffer w) n r) w) in
    if call_succeeded (buffer w) n r then set_buffer [] w1
    else set_err (Some (recorded r)) w1.
Proof.
  intros Hne Hcall. unfold flush.
  destruct (Z.gtb_spec (len (buffer w)) 0) as [_|H0].
  - rewrite Hcall. destruct r as [e|]; simpl; [done|].
    by destruct (n <? len (buffer w)).
  - pose proof (len_nonneg (buffer w)).
    exfalso. apply Hne, len_nil_iff. lia.
Qed.

(** A flush touches neither the channels nor the calls; it makes at most
    one sink call, on the whole buffer, and empties the buffer exactly when
    that call succeeded. *)
Lemma flush_frame w :
  notify (flush w) = notify w /\ quit (flush w) = quit w /\
  calls (flush w) = calls w /\ flusher_pc (flush w) = flusher_pc w /\
  maxSize (flush w) = maxSize w /\
  (buffer w = [] /\ flush w = w \/
   buffer w <> [] /\ exists n r,
     trace (flush w) = trace w ++ [EvSinkWrite (buffer w) n r] /\
     (call_succeeded (buffer w) n r = true /\
        buffer (flush w) = [] /\ err (flush w) = err w \/
      call_succeeded (buffer w) n r = false /\
        buffer (flush w) = buffer w /\ err (flush w) = Some (recorded r))).
Proof.
  destruct (decide (buffer w = [])) as [Hb|Hb].
  - rewrite flush_empty by done. naive_solver.
  - destruct (call_Write (writer w) (buffer w)) as [[n r] k] eqn:Hcall.
    rewrite (flush_nonempty _ _ _ _ Hb Hcall). simpl.
    destruct (call_succeeded (buffer w) n r) eqn:Hs; simpl;
      repeat split; try done; right; (split; [done|]); exists n, r; naive_solver.
Qed.

Lemma Write_invW c w c1 w1 :
  Write c w = Ok (c1, w1) ->
  (exists p, c = AtAppend p /\ c1 = AtSignal p /\
     w1 = log (EvAppend p) (set_buffer (buffer w ++ p) w)) \/
  (exists p, c = AtSignal p /\ c1 = Waiting p /\ w1 = set_notify true w) \/
  (exists p, c = Woken p /\ w1 = w /\
     c1 = Returned p (fst (Write_result p (err w))) (snd (Write_result p (err w)))).
Proof.
  destruct c as [p|p|p|p|p n r]; simpl; try done.
  - intros; simplify_eq. left. eauto.
  - intros; simplify_eq. right; left. eauto.
  - destruct (Write_result p (err w)) as [n r] eqn:Hr. intros; simplify_eq.
    right; right. exists p. by rewrite Hr.
Qed.




Lemma run_invariantW (P : t S -> Prop) :
  (forall a w w1, P w -> step a w = Ok w1 -> P w1) ->
  forall sched w w1, P w -> run sched w = Ok w1 -> P w1.
Proof.
  intros Hstep sched. induction sched as [|a sched IH]; intros w w1 HP; simpl.
  - intros; by simplify_eq.
  - destruct (step a w) as [w0| |] eqn:Ha; simpl; try done. eauto.
Qed.

(** A step other than the flusher's locked section calls no sink [Write]
    and only ever appends to the buffer. *)
Lemma quiet_stepW a w w1 :
  quietW a = true -> step a w = Ok w1 ->
  exists tr, trace w1 = trace w ++ tr /\ sink_calls tr = [] /\
             buffer w1 = buffer w ++ concat (payloads tr).
Proof.
  intros Hq. destruct a as [p|i| |l]; simpl.
  - intros; simplify_eq. exists []. simpl. by rewrite !app_nil_r.
  - destruct (calls w !! i) as [c|]; [|done].
    destruct (Write c w) as [[c1 w0]| |] eqn:HW; simpl; try done.
    intros; simplify_eq. simpl.
    destruct (Write_invW _ _ _ _ HW) as [(p & _ & _ & ->)|[(p & _ & _ & ->)|(p & _ & -> & _)]];
      simpl.
    + exists [EvAppend p]. simpl. by rewrite app_nil_r.
    + exists []. simpl. by rewrite !app_nil_r.
    + exists []. simpl. by rewrite !app_nil_r.
  - unfold Close. destruct (quit w); [done|]. simpl.
    destruct (io_Close (writer w)) as [close|]; simpl.
    + destruct (close (io_state (writer w))) as [r s]. simpl.
      intros; simplify_eq. simpl. exists [EvSinkClose r]. simpl.
      by rewrite app_nil_r.
    + intros; simplify_eq. exists []. simpl. by rewrite !app_nil_r.
  - unfold flusher.
    destruct l, (flusher_pc w); try done;
      repeat (match goal with |- context [if ?b then _ else _] => destruct b end);
      try done; intros; simplify_eq; simpl;
      exists []; simpl; by rewrite !app_nil_r.
Qed.

Lemma quiet_runW sched w w1 :
  Forall (fun a => quietW a = true) sched ->
  run sched w = Ok w1 ->
  exists tr, trace w1 = trace w ++ tr /\ sink_calls tr = [] /\
             buffer w1 = buffer w ++ concat (payloads tr).
Proof.
  intros Hq. revert w. induction Hq as [|a sched Ha Hq IH]; intros w; simpl.
  - intros; simplify_eq. exists []. simpl. by rewrite !app_nil_r.
  - destruct (step a w) as [w0| |] eqn:Hstep; simpl; try done.
    intros Hrun.
    destruct (quiet_stepW _ _ _ Ha Hstep) as (tr1 & Ht1 & Hs1 & Hb1).
    destruct (IH _ Hrun) as (tr2 & Ht2 & Hs2 & Hb2).
    exists (tr1 ++ tr2). rewrite Ht2, Ht1, Hb2, Hb1.
    rewrite sink_calls_app, payloads_app, concat_app, Hs1, Hs2.
    by rewrite !app_assoc.
Qed.

(** Once set, [w.err] is never [nil] again. *)
Lemma err_stays_set a w w1 :
  is_Some (err w) -> step a w = Ok w1 -> is_Some (err w1).
Proof.
  intros He. destruct a as [p|i| |l]; simpl.
  - intros; by simplify_eq.
  - destruct (calls w !! i) as [c|]; [|done].
    destruct (Write c w) as [[c1 w0]| |] eqn:HW; simpl; try done.
    intros; simplify_eq. simpl.
    by destruct (Write_invW _ _ _ _ HW) as [(p & _ & _ & ->)|[(p & _ & _ & ->)|(p & _ & -> & _)]].
  - unfold Close. destruct (quit w); [done|]. simpl.
    destruct (io_Close (writer w)) as [close|]; simpl.
    + destruct (close (io_state (writer w))) as [r s]. simpl.
      intros; by simplify_eq.
    + intros; by simplify_eq.
  - unfold flusher.
    destruct l, (flusher_pc w); try done;
      repeat (match goal with |- context [if ?b then _ else _] => destruct b end);
      try done; intros; simplify_eq; simpl; try done.
    destruct (flush_frame w) as (_ & _ & _ & _ & _ & [(_ & ->)|(Hne & n & r & _ & Hc)]);
      [done|].
    destruct Hc as [(_ & _ & ->)|(_ & _ & ->)]; [done|by eexists].
Qed.

End WriterFacts.

(** ** Coalescing *)

(** C1, amended.  Take any payloads [ps], not all empty.  Blocking
    [Writer]: start with an empty buffer; let any schedule without a flush
    append [ps]; when the flusher then runs its locked section, the sink's
    [Write] is called exactly once, with the concatenation of [ps].
    [DeadlineBufWriter]: the same, when the payloads together are below
    [maxSize] (each of them then is); the schedule consists of [Write] calls
    and of the flusher receiving its trigger. *)
Theorem C1_coalescing {S : Type} (ps : list bytes) (Hne : concat ps <> []) :
  (forall (w w1 : Writer.t S) sched,
     Writer.buffer w = [] ->
     Forall (fun a => quietW a = true) sched ->
     Writer.run sched w = Ok w1 ->
     payloads (Writer.trace w1) = payloads (Writer.trace w) ++ ps ->
     Writer.flusher_pc w1 = Writer.AtLock ->
     exists w2,
       Writer.flusher Writer.Flush w1 = Ok w2 /\
       sink_calls (Writer.trace w2) =
         sink_calls (Writer.trace w) ++ [concat ps]) /\
  (forall (w w1 : DeadlineBufWriter.t S) sched,
     DeadlineBufWriter.buffer w = [] ->
     len (concat ps) < DeadlineBufWriter.maxSize w ->
     Forall (fun a => quietD a = true) sched ->
     DeadlineBufWriter.run sched w = Ok w1 ->
     payloads (DeadlineBufWriter.trace w1) =
       payloads (DeadlineBufWriter.trace w) ++ ps ->
     DeadlineBufWriter.flusher_pc w1 = DeadlineBufWriter.AtSleep ->
     exists w2,
       DeadlineBufWriter.flusher DeadlineBufWriter.Flush w1 = Ok w2 /\
       sink_calls (DeadlineBufWriter.trace w2) =
         sink_calls (DeadlineBufWriter.trace w) ++ [concat ps]).
Proof.
  split.
  - intros w w1 sched Hb Hq Hrun Hps Hpc.
    destruct (quiet_runW _ _ _ Hq Hrun) as (tr & Htr & Hs & Hb1).
    rewrite Htr, payloads_app in Hps. apply app_inv_head in Hps.
    rewrite Hb, Hps in Hb1. simpl in Hb1.
    unfold Writer.flusher. rewrite Hpc. eexists. split; [done|]. simpl.
    destruct (flush_frame w1) as (_ & _ & _ & _ & _ & [(Hb0 & _)|(_ & n & r & Hf & _)]).
    + congruence.
    + by rewrite Hf, sink_calls_app, Htr, sink_calls_app, Hs, Hb1, app_nil_r.
  - intros w w1 sched Hb Hlen Hq Hrun Hps Hpc.
    destruct (quiet_runD _ _ _ _ Hq Hrun Hps) as (Hb1 & Hs & _).
    { rewrite Hb. simpl. lia. }
    rewrite Hb in Hb1. simpl in Hb1.
    unfold DeadlineBufWriter.flusher. rewrite Hpc.
    destruct (DeadlineBufWriter.flushLocked w1) as [err w0] eqn:Hf.
    destruct (flushLocked_frame _ _ _ Hf) as (_ & _ & _ & _ & _ & _ & _ & _ & Hc).
    destruct Hc as [(Hb0 & _)|(_ & n & r & Htr & _)]; [congruence|].
    exists (DeadlineBufWriter.set_pc
              (match err with
               | Some e => DeadlineBufWriter.AtSend e
               | None => DeadlineBufWriter.AtRange
               end) w0).
    split; [by destruct err|].
    destruct err; simpl; by rewrite Htr, sink_calls_app, Hs, Hb1.
Qed.

(** ** The buffer after a flush *)

(** C3, amended.  In the [DeadlineBufWriter] every flush leaves the buffer
    empty, whatever the sink answered, so a flush that follows at once has
    nothing to send.  In the blocking [Writer] a flush of a non-empty buffer
    empties it exactly when the sink call succeeded; after a sink error or a
    short write the buffer is kept as it was and the failure is recorded in
    [w.err]. *)
Theorem C3_buffer_after_flush {S : Type} :
  (forall (w w1 : DeadlineBufWriter.t S) err,
     DeadlineBufWriter.flushLocked w = (err, w1) ->
     DeadlineBufWriter.buffer w1 = [] /\
     DeadlineBufWriter.flushLocked w1 = (None, w1)) /\
  (forall (w : Writer.t S) n r k,
     Writer.buffer w <> [] ->
     call_Write (Writer.writer w) (Writer.buffer w) = (n, r, k) ->
     if call_succeeded (Writer.buffer w) n r
     then Writer.buffer (Writer.flush w) = []
     else Writer.buffer (Writer.flush w) = Writer.buffer w /\
          Writer.err (Writer.flush w) = Some (recorded r)).
Proof.
  split.
  - intros w w1 err Hf.
    destruct (flushLocked_frame _ _ _ Hf) as (Hb & _).
    split; [done|]. by apply flushLocked_empty.
  - intros w n r k Hne Hcall. rewrite (flush_nonempty _ _ _ _ Hne Hcall). simpl.
    by destruct (call_succeeded (Writer.buffer w) n r).
Qed.


(** ** The size threshold *)

(** C5, amended.  A [DeadlineBufWriter.Write] that finds no queued error
    flushes inline, and returns that flush's result, exactly when the buffer
    has grown strictly beyond [maxSize]; when the buffer size is at most
    [maxSize] (in particular equal to it) and the writer is not closed, the
    call makes no sink call, keeps the bytes buffered, signals the trigger
    and returns [(len(p), nil)].  In the blocking [Writer] the flusher goes
    from its size test straight to the locked section when the buffer size
    is at least [maxSize], and to the sleep otherwise. *)
Theorem C5_threshold {S : Type} :
  (forall (w : DeadlineBufWriter.t S) p,
     DeadlineBufWriter.errors w = None ->
     (len (DeadlineBufWriter.buffer w ++ p) > DeadlineBufWriter.maxSize w ->
      exists err w1,
        DeadlineBufWriter.flushLocked (DeadlineBufWriter.append p w) = (err, w1) /\
        DeadlineBufWriter.Write p w = Ok (Write_result p err, w1)) /\
     (len (DeadlineBufWriter.buffer w ++ p) <= DeadlineBufWriter.maxSize w ->
      DeadlineBufWriter.notify_closed w = false ->
      exists w1,
        DeadlineBufWriter.Write p w = Ok (len p, None, w1) /\
        sink_calls (DeadlineBufWriter.trace w1) =
          sink_calls (DeadlineBufWriter.trace w) /\
        DeadlineBufWriter.buffer w1 = DeadlineBufWriter.buffer w ++ p /\
        DeadlineBufWriter.notify w1 = true)) /\
  (forall (w : Writer.t S),
     Writer.flusher_pc w = Writer.AtCheck ->
     exists w1,
       Writer.flusher Writer.SizeCheck w = Ok w1 /\
       Writer.flusher_pc w1 =
         (if Writer.maxSize w <=? Writer.bufferSize w
          then Writer.AtLock else Writer.AtSleep)).
Proof.
  split.
  - intros w p He. split.
    + intros Hgt.
      destruct (DeadlineBufWriter.flushLocked (DeadlineBufWriter.append p w))
        as [err w1] eqn:Hf.
      exists err, w1. split; [done|].
      unfold DeadlineBufWriter.Write. rewrite He.
      destruct (Z.gtb_spec
                  (len (DeadlineBufWriter.buffer (DeadlineBufWriter.append p w)))
                  (DeadlineBufWriter.maxSize (DeadlineBufWriter.append p w)))
        as [_|Hle]; [by rewrite Hf|]. simpl in Hle. lia.
    + intros Hle Hc. eexists. unfold DeadlineBufWriter.Write. rewrite He.
      destruct (Z.gtb_spec
                  (len (DeadlineBufWriter.buffer (DeadlineBufWriter.append p w)))
                  (DeadlineBufWriter.maxSize (DeadlineBufWriter.append p w)))
        as [Hgt|_]; [simpl in Hgt; lia|].
      simpl. rewrite Hc. split; [done|]. simpl.
      rewrite sink_calls_app. simpl. by rewrite app_nil_r.
  - intros w Hpc. unfold Writer.flusher. rewrite Hpc.
    destruct (Z.ltb_spec (Writer.bufferSize w) (Writer.maxSize w)) as [Hlt|Hge];
      eexists; (split; [done|]); simpl.
    + destruct (Z.leb_spec (Writer.maxSize w) (Writer.bufferSize w)); [lia|done].
    + destruct (Z.leb_spec (Writer.maxSize w) (Writer.bufferSize w)); [done|lia].
Qed.

(** ** The error channel *)

(** C7, amended.  When the flusher of a [DeadlineBufWriter] holds the error
    of a failed flush and the error channel is full, it can take no step at
    all: the send blocks.  The queued error goes to the next [Write], which
    buffers nothing; the flusher's send then completes and the channel holds
    the new error.  No error is dropped. *)
Theorem C7_send_blocks {S : Type} (w : DeadlineBufWriter.t S) (e e' : error) :
  DeadlineBufWriter.flusher_pc w = DeadlineBufWriter.AtSend e' ->
  DeadlineBufWriter.errors w = Some e ->
  (forall l, DeadlineBufWriter.flusher l w = Blocked) /\
  (forall p, exists w1 w2,
     DeadlineBufWriter.Write p w = Ok (0, Some e, w1) /\
     DeadlineBufWriter.buffer w1 = DeadlineBufWriter.buffer w /\
     DeadlineBufWriter.flusher DeadlineBufWriter.Send w1 = Ok w2 /\
     DeadlineBufWriter.errors w2 = Some e' /\
     DeadlineBufWriter.flusher_pc w2 = DeadlineBufWriter.AtRange).
Proof.
  intros Hpc He. split.
  - intros l. unfold DeadlineBufWriter.flusher. rewrite Hpc, He. by destruct l.
  - intros p. unfold DeadlineBufWriter.Write. rewrite He.
    eexists _, _. split; [done|]. split; [done|].
    unfold DeadlineBufWriter.flusher. simpl. rewrite Hpc. done.
Qed.

(** C8.  A [DeadlineBufWriter.Write] that finds an error queued returns
    [(0, err)] with that error, takes it out of the channel and leaves the
    buffer and the trace as they were.  One that finds none appends its
    payload: afterwards the buffer is the old one followed by [p], or the
    inline flush has handed exactly those bytes to the sink; the only other
    outcome is the panic of a send on the trigger channel that [Close] has
    closed.  A queued error stays queued across every step of the flusher:
    only [Write] and [Close] take it out, and they return it. *)
Theorem C8_pending_error {S : Type} (w : DeadlineBufWriter.t S) (p : bytes) :
  (forall e, DeadlineBufWriter.errors w = Some e ->
     (exists w1,
        DeadlineBufWriter.Write p w = Ok (0, Some e, w1) /\
        DeadlineBufWriter.buffer w1 = DeadlineBufWriter.buffer w /\
        DeadlineBufWriter.trace w1 = DeadlineBufWriter.trace w /\
        DeadlineBufWriter.errors w1 = None) /\
     (exists w1,
        DeadlineBufWriter.Close w = Ok (Some e, w1) /\
        DeadlineBufWriter.errors w1 = None) /\
     (forall l w1, DeadlineBufWriter.flusher l w = Ok w1 ->
        DeadlineBufWriter.errors w1 = Some e)) /\
  (DeadlineBufWriter.errors w = None ->
     match DeadlineBufWriter.Write p w with
     | Ok (_, w1) =>
         payloads (DeadlineBufWriter.trace w1) =
           payloads (DeadlineBufWriter.trace w) ++ [p] /\
         (DeadlineBufWriter.buffer w1 = DeadlineBufWriter.buffer w ++ p \/
          DeadlineBufWriter.buffer w1 = [] /\
          sink_calls (DeadlineBufWriter.trace w1) =
            sink_calls (DeadlineBufWriter.trace w) ++
            [DeadlineBufWriter.buffer w ++ p])
     | Panic => DeadlineBufWriter.notify_closed w = true
     | Blocked => False
     end).
Proof.
  split.
  - intros e He. repeat split.
    + unfold DeadlineBufWriter.Write. rewrite He. by eexists.
    + unfold DeadlineBufWriter.Close. rewrite He. by eexists.
    + intros l w1. by apply flusher_keeps_error.
  - intros He. unfold DeadlineBufWriter.Write. rewrite He.
    destruct (len (DeadlineBufWriter.buffer (DeadlineBufWriter.append p w)) >?
              DeadlineBufWriter.maxSize (DeadlineBufWriter.append p w)).
    + destruct (DeadlineBufWriter.flushLocked (DeadlineBufWriter.append p w))
        as [err w1] eqn:Hf.
      destruct (flushLocked_frame _ _ _ Hf) as (Hb & _ & _ & _ & _ & _ & _ & _ & Hc).
      simpl in Hc.
      destruct Hc as [(Hb0 & -> & _)|(_ & n & r & Htr & _)]; simpl.
      * rewrite payloads_app. split; [done|]. by left.
      * rewrite Htr, !payloads_app, !sink_calls_app. simpl.
        rewrite !app_nil_r. split; [done|]. by right.
    + simpl. destruct (DeadlineBufWriter.notify_closed w); [done|]. simpl.
      rewrite payloads_app. split; [done|]. by left.
Qed.

(** ** Empty flushes *)


(** ** Closing the non-blocking writer *)

(** C10.  When no error is queued and the final flush of
    [DeadlineBufWriter.Close] fails, [Close] returns the flush error, the
    trigger channel is as it was and the sink's [Close] is not called.
    Conversely, whenever a [Close] closes the trigger channel or calls the
    sink's [Close], no error was queued and its final flush returned [nil]
    (which includes the flush of an empty buffer). *)
Theorem C10_Close_after_failed_flush {S : Type} (w : DeadlineBufWriter.t S) :
  (DeadlineBufWriter.errors w = None ->
   forall e w1,
     DeadlineBufWriter.flushLocked w = (Some e, w1) ->
     DeadlineBufWriter.Close w = Ok (Some e, w1) /\
     DeadlineBufWriter.notify_closed w1 = DeadlineBufWriter.notify_closed w /\
     sink_closes (DeadlineBufWriter.trace w1) =
       sink_closes (DeadlineBufWriter.trace w)) /\
  (forall r w1,
     DeadlineBufWriter.Close w = Ok (r, w1) ->
     DeadlineBufWriter.notify_closed w1 <> DeadlineBufWriter.notify_closed w \/
     sink_closes (DeadlineBufWriter.trace w1) <>
       sink_closes (DeadlineBufWriter.trace w) ->
     DeadlineBufWriter.errors w = None /\
     exists w0, DeadlineBufWriter.flushLocked w = (None, w0)).
Proof.
  split.
  - intros He e w1 Hf. unfold DeadlineBufWriter.Close. rewrite He, Hf.
    split; [done|].
    destruct (flushLocked_frame _ _ _ Hf) as (_ & _ & _ & Hc & _ & _ & _ & _ & Htr).
    split; [done|].
    destruct Htr as [(_ & -> & _)|(_ & n & r & -> & _)]; [done|].
    rewrite sink_closes_app. simpl. lia.
  - intros r w1 HC Hchg.
    destruct (Close_invD _ _ _ HC) as [(e & _ & _ & ->)|[(_ & e & Hf & _)|(He & w0 & Hf & _)]].
    + simpl in Hchg. by destruct Hchg.
    + exfalso.
      destruct (flushLocked_frame _ _ _ Hf) as (_ & _ & _ & Hc & _ & _ & _ & _ & Htr).
      destruct Hchg as [Hchg|Hchg]; [done|]. apply Hchg.
      destruct Htr as [(_ & -> & _)|(_ & n & r0 & -> & _)]; [done|].
      rewrite sink_closes_app. simpl. lia.
    + split; [done|]. by exists w0.
Qed.

(** ** The claims on concrete runs *)

(** C1 as stated fails on a write of no bytes: [Write(nil)] on a fresh
    [DeadlineBufWriter] with [maxSize = 32] is one write below [maxSize];
    the flusher picks up its trigger and flushes, and the sink is called
    zero times, not once. *)
Lemma C1_empty_write_is_not_flushed :
  exists w1 w2,
    DeadlineBufWriter.run
      [DeadlineBufWriter.DoWrite []; DeadlineBufWriter.DoFlusher DeadlineBufWriter.Recv]
      (DeadlineBufWriter.NewDeadlineBufWriter (writer_test.cw None) 100 32) = Ok w1 /\
    payloads (DeadlineBufWriter.trace w1) = [[]] /\
    len (concat [[]]) < DeadlineBufWriter.maxSize w1 /\
    DeadlineBufWriter.flusher DeadlineBufWriter.Flush w1 = Ok w2 /\
    sink_calls (DeadlineBufWriter.trace w2) = [] /\
    sink_calls (DeadlineBufWriter.trace w2) <> [concat [[]]].
Proof. eexists _, _. repeat split; try reflexivity. done. Qed.

(** The five small writes of the tests are coalesced into one sink call of
    fifteen bytes, in both variants. *)
Lemma C1_coalescing_witness :
  concat (repeat writer_test.smallData 5) <> [] /\
  (exists w1,
     Writer.run five_writesW (Writer.NewWriter (writer_test.cw None) 100 32) = Ok w1 /\
     exists w2,
       Writer.flusher Writer.Flush w1 = Ok w2 /\
       sink_calls (Writer.trace w2) = [concat (repeat writer_test.smallData 5)]) /\
  (exists w1,
     DeadlineBufWriter.run five_writesD
       (DeadlineBufWriter.NewDeadlineBufWriter (writer_test.cw None) 100 32) = Ok w1 /\
     exists w2,
       DeadlineBufWriter.flusher DeadlineBufWriter.Flush w1 = Ok w2 /\
       sink_calls (DeadlineBufWriter.trace w2) =
         [concat (repeat writer_test.smallData 5)]).
Proof.
  assert (Hne : concat (repeat writer_test.smallData 5) <> [])
    by (vm_compute; discriminate).
  split; [exact Hne|].
  destruct (C1_coalescing (S := writer_test.countingWriter) _ Hne) as [HW HD].
  split.
  - eexists. split; [vm_compute; reflexivity|].
    apply HW with (w := Writer.NewWriter (writer_test.cw None) 100 32)
                  (sched := five_writesW).
    + reflexivity.
    + repeat constructor.
    + vm_compute; reflexivity.
    + vm_compute; reflexivity.
    + reflexivity.
  - eexists. split; [vm_compute; reflexivity|].
    apply HD with
      (w := DeadlineBufWriter.NewDeadlineBufWriter (writer_test.cw None) 100 32)
      (sched := five_writesD).
    + reflexivity.
    + vm_compute; reflexivity.
    + repeat constructor.
    + vm_compute; reflexivity.
    + vm_compute; reflexivity.
    + reflexivity.
Defined.

(** C2 fails on the code.  The sink fails the first flush only.  [Write("a")]
    waits for that flush and returns [(0, Neh)].  [Write("b")] is made
    afterwards; its flush hands ["ab"] to the sink, which accepts both bytes,
    and still the call returns [(0, Neh)]: the flusher never resets [w.err]. *)
Theorem C2_error_outlives_its_flush :
  exists w,
    Writer.run (lone_writeW 0 ["a"%byte] ++ lone_writeW 1 ["b"%byte])
      (Writer.NewWriter (scripted [(0, Some writer_test.Neh)]) 100 32) = Ok w /\
    Writer.trace w =
      [EvAppend ["a"%byte];
       EvSinkWrite ["a"%byte] 0 (Some writer_test.Neh);
       EvAppend ["b"%byte];
       EvSinkWrite ["a"%byte; "b"%byte] 2 None] /\
    Writer.calls w =
      [Writer.Returned ["a"%byte] 0 (Some writer_test.Neh);
       Writer.Returned ["b"%byte] 0 (Some writer_test.Neh)] /\
    Writer.err w = Some writer_test.Neh.
Proof. eexists. split; [vm_compute; reflexivity|]. repeat split. Qed.

(** C3 as stated fails on the blocking [Writer]: with the failing sink of
    [TestReportError], the flush of [smallData] leaves the buffer as it was,
    and the next flush hands the same bytes to the sink again, in front of
    those of the next write. *)
Lemma C3_failed_flush_keeps_buffer :
  exists w1 w2 w3,
    Writer.run
      [Writer.Call writer_test.smallData; Writer.Go 0; Writer.Go 0;
       Writer.DoFlusher Writer.Recv; Writer.DoFlusher Writer.SizeCheck;
       Writer.DoFlusher Writer.Wake]%nat
      (Writer.NewWriter (writer_test.cw (Some writer_test.Neh)) 100 32) = Ok w1 /\
    Writer.flusher Writer.Flush w1 = Ok w2 /\
    Writer.trace w2 =
      [EvAppend writer_test.smallData;
       EvSinkWrite writer_test.smallData 0 (Some writer_test.Neh)] /\
    Writer.buffer w2 = writer_test.smallData /\
    Writer.buffer w2 <> [] /\
    Writer.run
      ([Writer.DoFlusher Writer.Broadcast; Writer.Go 0]%nat ++
       lone_writeW 1 writer_test.smallData) w2 = Ok w3 /\
    sink_calls (Writer.trace w3) =
      [writer_test.smallData; writer_test.smallData ++ writer_test.smallData].
Proof.
  eexists _, _, _.
  split; [vm_compute; reflexivity|]. split; [vm_compute; reflexivity|].
  split; [reflexivity|]. split; [reflexivity|]. split; [discriminate|].
  split; [vm_compute; reflexivity|]. reflexivity.
Qed.

(** Both variants at one flush: the non-blocking one has an empty buffer
    after its failed flush, the blocking one has kept its three bytes. *)
Lemma C3_buffer_after_flush_witness :
  (exists w1,
     DeadlineBufWriter.flushLocked
       (DeadlineBufWriter.append writer_test.smallData
          (DeadlineBufWriter.NewDeadlineBufWriter
             (writer_test.cw (Some writer_test.Neh)) 100 32))
     = (Some ErrShortWrite, w1) /\
     DeadlineBufWriter.buffer w1 = [] /\
     DeadlineBufWriter.flushLocked w1 = (None, w1)) /\
  (exists w,
     Writer.run [Writer.Call writer_test.smallData; Writer.Go 0]%nat
       (Writer.NewWriter (writer_test.cw (Some writer_test.Neh)) 100 32) = Ok w /\
     Writer.buffer (Writer.flush w) = Writer.buffer w /\
     Writer.err (Writer.flush w) = Some writer_test.Neh).
Proof.
  destruct (C3_buffer_after_flush (S := writer_test.countingWriter)) as [HD HW].
  split.
  - eexists. split; [vm_compute; reflexivity|].
    eapply (HD (DeadlineBufWriter.append writer_test.smallData
                  (DeadlineBufWriter.NewDeadlineBufWriter
                     (writer_test.cw (Some writer_test.Neh)) 100 32))
               _ (Some ErrShortWrite)).
    vm_compute. reflexivity.
  - eexists. split; [vm_compute; reflexivity|].
    match goal with
    | |- Writer.buffer (Writer.flush ?w) = _ /\ _ =>
        exact (HW w 0 (Some writer_test.Neh) _ ltac:(discriminate) eq_refl)
    end.
Defined.



(** C5 as stated fails at equality: on a fresh [DeadlineBufWriter] with
    [maxSize = 32], a [Write] of exactly 32 bytes makes no sink call; the
    bytes stay buffered and the flush is left to the flusher. *)
Lemma C5_no_inline_flush_at_maxSize :
  exists w1,
    DeadlineBufWriter.Write (repeat "x"%byte 32)
      (DeadlineBufWriter.NewDeadlineBufWriter (writer_test.cw None) 100 32)
    = Ok (32, None, w1) /\
    len (DeadlineBufWriter.buffer w1) = DeadlineBufWriter.maxSize w1 /\
    sink_calls (DeadlineBufWriter.trace w1) = [] /\
    DeadlineBufWriter.notify w1 = true /\
    DeadlineBufWriter.flusher_pc w1 = DeadlineBufWriter.AtRange.
Proof. eexists. split; [vm_compute; reflexivity|]. repeat split. Qed.

(** At 33 bytes the flush is inline, at 32 it is not; the blocking flusher
    skips its sleep at 32 bytes. *)
Lemma C5_threshold_witness :
  (exists w1,
     DeadlineBufWriter.Write (repeat "x"%byte 33)
       (DeadlineBufWriter.NewDeadlineBufWriter (writer_test.cw None) 100 32)
     = Ok (33, None, w1) /\
     sink_calls (DeadlineBufWriter.trace w1) = [repeat "x"%byte 33]) /\
  (exists w1,
     DeadlineBufWriter.Write (repeat "x"%byte 32)
       (DeadlineBufWriter.NewDeadlineBufWriter (writer_test.cw None) 100 32)
     = Ok (32, None, w1) /\
     sink_calls (DeadlineBufWriter.trace w1) = [] /\
     DeadlineBufWriter.buffer w1 = repeat "x"%byte 32 /\
     DeadlineBufWriter.notify w1 = true) /\
  (exists w,
     Writer.run
       [Writer.Call (repeat "x"%byte 32); Writer.Go 0; Writer.Go 0;
        Writer.DoFlusher Writer.Recv]%nat
       (Writer.NewWriter (writer_test.cw None) 100 32) = Ok w /\
     exists w1,
       Writer.flusher Writer.SizeCheck w = Ok w1 /\
       Writer.flusher_pc w1 = Writer.AtLock).
Proof.
  destruct (C5_threshold (S := writer_test.countingWriter)) as [HD HW].
  pose (w0 := DeadlineBufWriter.NewDeadlineBufWriter (writer_test.cw None) 100 32).
  split; [|split].
  - destruct (proj1 (HD w0 (repeat "x"%byte 33) eq_refl)) as (err & w1 & Hf & HWr).
    { vm_compute. reflexivity. }
    exists w1. vm_compute in Hf. injection Hf as <- <-.
    split; [exact HWr|]. reflexivity.
  - exact (proj2 (HD w0 (repeat "x"%byte 32) eq_refl) ltac:(vm_compute; discriminate) eq_refl).
  - eexists. split; [vm_compute; reflexivity|].
    match goal with
    | |- exists w1, Writer.flusher _ ?w = _ /\ _ => exact (HW w eq_refl)
    end.
Defined.

(** C6 fails on the code, in [flushLocked].  [TestReportErrorD]: the sink
    answers [(0, Neh)]; the small write is buffered and [Close] flushes it.
    [Close] returns [ErrShortWrite], not the sink's [Neh]; so does a [Write]
    of [bigData], which flushes inline.  On the same sink the blocking
    [Writer] returns [Neh] ([TestReportError]). *)
Theorem C6_sink_error_replaced :
  let w0 := DeadlineBufWriter.NewDeadlineBufWriter
              (writer_test.cw (Some writer_test.Neh)) 100 32 in
  (exists w,
     Writer.run (lone_writeW 0 writer_test.smallData)
       (Writer.NewWriter (writer_test.cw (Some writer_test.Neh)) 100 32) = Ok w /\
     Writer.calls w =
       [Writer.Returned writer_test.smallData 0 (Some writer_test.Neh)]) /\
  (exists w1 w2,
     DeadlineBufWriter.Write writer_test.smallData w0 = Ok (3, None, w1) /\
     DeadlineBufWriter.Close w1 = Ok (Some ErrShortWrite, w2) /\
     DeadlineBufWriter.trace w2 =
       [EvAppend writer_test.smallData;
        EvSinkWrite writer_test.smallData 0 (Some writer_test.Neh)]) /\
  (exists w1,
     DeadlineBufWriter.Write writer_test.bigData w0
       = Ok (0, Some ErrShortWrite, w1) /\
     DeadlineBufWriter.trace w1 =
       [EvAppend writer_test.bigData;
        EvSinkWrite writer_test.bigData 0 (Some writer_test.Neh)]).
Proof.
  split; [|split].
  - eexists. split; [vm_compute; reflexivity|]. reflexivity.
  - eexists _, _. split; [vm_compute; reflexivity|].
    split; [vm_compute; reflexivity|]. reflexivity.
  - eexists. split; [vm_compute; reflexivity|]. reflexivity.
Qed.

(** C7 as stated fails: two flushes fail in a row, with errors [first] and
    [second], and no [Write] or [Close] comes in between.  [first] sits in
    the channel; the flusher, holding [second], cannot take its send step:
    it is blocked, and [second] has not been dropped. *)
Lemma C7_flusher_blocked_on_full_channel :
  exists w,
    DeadlineBufWriter.run two_failuresD
      (DeadlineBufWriter.NewDeadlineBufWriter
         (scripted [(3, Some first); (3, Some second)]) 100 32) = Ok w /\
    DeadlineBufWriter.errors w = Some first /\
    DeadlineBufWriter.flusher_pc w = DeadlineBufWriter.AtSend second /\
    DeadlineBufWriter.flusher DeadlineBufWriter.Send w = Blocked.
Proof. eexists. split; [vm_compute; reflexivity|]. repeat split. Qed.

(** The same run, continued: the next [Write] gets [first], the send then
    goes through and [second] is queued. *)
Lemma C7_send_blocks_witness :
  exists w,
    DeadlineBufWriter.run two_failuresD
      (DeadlineBufWriter.NewDeadlineBufWriter
         (scripted [(3, Some first); (3, Some second)]) 100 32) = Ok w /\
    (forall l, DeadlineBufWriter.flusher l w = Blocked) /\
    (forall p, exists w1 w2,
       DeadlineBufWriter.Write p w = Ok (0, Some first, w1) /\
       DeadlineBufWriter.buffer w1 = DeadlineBufWriter.buffer w /\
       DeadlineBufWriter.flusher DeadlineBufWriter.Send w1 = Ok w2 /\
       DeadlineBufWriter.errors w2 = Some second /\
       DeadlineBufWriter.flusher_pc w2 = DeadlineBufWriter.AtRange).
Proof.
  eexists. split; [vm_compute; reflexivity|].
  apply C7_send_blocks; reflexivity.
Defined.

(** [TestReportErrorD], with a second write in place of [Close]: the error
    of the flusher's failed flush is queued; the next [Write] returns it and
    buffers nothing, the one after that is buffered. *)
Lemma C8_pending_error_witness :
  exists w,
    DeadlineBufWriter.run
      ([DeadlineBufWriter.DoWrite writer_test.smallData] ++ cycleD ++
       [DeadlineBufWriter.DoFlusher DeadlineBufWriter.Send])
      (DeadlineBufWriter.NewDeadlineBufWriter
         (writer_test.cw (Some writer_test.Neh)) 100 32) = Ok w /\
    DeadlineBufWriter.errors w = Some ErrShortWrite /\
    exists w1,
      DeadlineBufWriter.Write writer_test.smallData w
        = Ok (0, Some ErrShortWrite, w1) /\
      DeadlineBufWriter.buffer w1 = DeadlineBufWriter.buffer w /\
      DeadlineBufWriter.trace w1 = DeadlineBufWriter.trace w /\
      DeadlineBufWriter.errors w1 = None /\
      match DeadlineBufWriter.Write writer_test.smallData w1 with
      | Ok (_, w2) =>
          payloads (DeadlineBufWriter.trace w2) =
            payloads (DeadlineBufWriter.trace w1) ++ [writer_test.smallData] /\
          (DeadlineBufWriter.buffer w2 =
             DeadlineBufWriter.buffer w1 ++ writer_test.smallData \/
           DeadlineBufWriter.buffer w2 = [] /\
           sink_calls (DeadlineBufWriter.trace w2) =
             sink_calls (DeadlineBufWriter.trace w1) ++
             [DeadlineBufWriter.buffer w1 ++ writer_test.smallData])
      | Panic => DeadlineBufWriter.notify_closed w1 = true
      | Blocked => False
      end.
Proof.
  eexists. split; [vm_compute; reflexivity|]. split; [reflexivity|].
  match goal with
  | |- exists w1, DeadlineBufWriter.Write ?p ?w = _ /\ _ =>
      destruct (proj1 (proj1 (C8_pending_error w p) ErrShortWrite eq_refl))
        as (w1 & H1 & H2 & H3 & H4)
  end.
  exists w1. repeat (split; [assumption|]).
  exact (proj2 (C8_pending_error w1 writer_test.smallData) H4).
Defined.


(** [TestReportErrorD]: the [Close] after the small write returns the flush
    error and neither closes the trigger channel nor calls the sink's
    [Close]; with a sink that accepts the bytes, [Close] does both. *)
Lemma C10_Close_after_failed_flush_witness :
  (exists w,
     DeadlineBufWriter.run [DeadlineBufWriter.DoWrite writer_test.smallData]
       (DeadlineBufWriter.NewDeadlineBufWriter (scripted [(0, Some writer_test.Neh)])
          100 32) = Ok w /\
     exists w1,
       DeadlineBufWriter.Close w = Ok (Some ErrShortWrite, w1) /\
       DeadlineBufWriter.notify_closed w1 = DeadlineBufWriter.notify_closed w /\
       sink_closes (DeadlineBufWriter.trace w1) =
         sink_closes (DeadlineBufWriter.trace w)) /\
  (exists w w1,
     DeadlineBufWriter.run [DeadlineBufWriter.DoWrite writer_test.smallData]
       (DeadlineBufWriter.NewDeadlineBufWriter (scripted []) 100 32) = Ok w /\
     DeadlineBufWriter.Close w = Ok (None, w1) /\
     DeadlineBufWriter.notify_closed w1 = true /\
     sink_closes (DeadlineBufWriter.trace w1) = 1%nat /\
     DeadlineBufWriter.errors w = None /\
     exists w0, DeadlineBufWriter.flushLocked w = (None, w0)).
Proof.
  split.
  - eexists. split; [vm_compute; reflexivity|]. eexists.
    match goal with
    | |- DeadlineBufWriter.Close ?w = _ /\ _ =>
        eapply (proj1 (C10_Close_after_failed_flush w) eq_refl)
    end.
    vm_compute. reflexivity.
  - eexists _, _. split; [vm_compute; reflexivity|].
    split; [vm_compute; reflexivity|]. split; [reflexivity|]. split; [reflexivity|].
    eapply (proj2 (C10_Close_after_failed_flush _) None).
    + vm_compute. reflexivity.
    + left. discriminate.
Defined.

(** * Further properties of the two writers *)

(** ** The non-blocking writer *)

Section DeadlineMore.
Import DeadlineBufWriter.
Context {S : Type}.
Implicit Types (w : t S) (p : bytes) (e : error).

(** A flush keeps the sink's methods. *)
Lemma flushLocked_methods w err w1 :
  flushLocked w = (err, w1) ->
  io_Write (writer w1) = io_Write (writer w).
Proof.
  unfold flushLocked. destruct (len (buffer w) =? 0); [by intros; simplify_eq|].
  unfold call_Write. destruct (io_Write _ _ _) as [[n r] s].
  intros; by simplify_eq.
Qed.





(** X7 (non-blocking half).  A [Write] never acknowledges part of its
    payload: it returns [(len(p), nil)] or [(0, err)]. *)
Lemma Deadline_Write_all_or_nothing p w n r w1 :
  Write p w = Ok (n, r, w1) -> all_or_nothing p n r.
Proof.
  intros H. unfold all_or_nothing.
  destruct (Write_invD _ _ _ _ H) as [(e & _ & ? & _)|[(_ & _ & err & _ & Hr)|(_ & _ & _ & ? & _)]];
    simplify_eq; [right; eauto|..|by left].
  destruct err; simpl in Hr; simplify_eq; [right; eauto|by left].
Qed.

End DeadlineMore.

Section DeadlineConfig.
Import DeadlineBufWriter.
Context {S : Type}.
Implicit Types (w : t S) (p : bytes) (e : error).

(** No step changes the configuration or the sink's methods. *)
Lemma step_configD a w w1 :
  step a w = Ok w1 ->
  timeout w1 = timeout w /\ maxSize w1 = maxSize w /\
  io_Write (writer w1) = io_Write (writer w) /\
  io_Close (writer w1) = io_Close (writer w).
Proof.
  intros Hstep.
  assert (Hfl : forall w err w1, flushLocked w = (err, w1) ->
            timeout w1 = timeout w /\ maxSize w1 = maxSize w /\
            io_Write (writer w1) = io_Write (writer w) /\
            io_Close (writer w1) = io_Close (writer w)).
  { intros w' err w1' Hf. pose proof (flushLocked_methods _ _ _ Hf).
    destruct (flushLocked_frame _ _ _ Hf) as (_ & _ & _ & _ & _ & ? & ? & ? & _).
    done. }
  destruct (step_invD _ _ _ Hstep) as [(p & r & -> & H)|[(r & -> & H)|(l & -> & H)]].
  - destruct (Write_invD _ _ _ _ H) as [(e & _ & _ & ->)|[(_ & _ & err & Hf & _)|(_ & _ & _ & _ & ->)]];
      [done| |done].
    by apply Hfl in Hf.
  - destruct (Close_invD _ _ _ H) as [(e & _ & _ & ->)|[(_ & e & Hf & _)|(_ & w0 & Hf & _ & Hc)]];
      [done|by apply Hfl in Hf|].
    apply Hfl in Hf.
    by destruct Hc as [(_ & _ & ->)|(close & s & _ & _ & ->)].
  - destruct (flusher_invD _ _ _ H) as [(_ & _ & _ & ->)|[(_ & _ & _ & _ & ->)|[(_ & _ & err & w0 & Hf & ->)|(_ & _ & e & _ & ->)]]];
      try done.
    by apply Hfl in Hf.
Qed.

(** A step leaves the number of calls of the sink's [Close] and the state of
    the trigger channel as they are, or it closes the channel, which was
    open, and calls the sink's [Close] at most once. *)
Lemma step_closesD a w w1 :
  step a w = Ok w1 ->
  sink_closes (trace w1) = sink_closes (trace w) /\
    notify_closed w1 = notify_closed w \/
  notify_closed w = false /\ notify_closed w1 = true /\
    (sink_closes (trace w1) <= sink_closes (trace w) + 1)%nat.
Proof.
  intros Hstep.
  assert (Hfl : forall w err w1, flushLocked w = (err, w1) ->
            sink_closes (trace w1) = sink_closes (trace w) /\
            notify_closed w1 = notify_closed w).
  { intros w' err w1' Hf.
    destruct (flushLocked_frame _ _ _ Hf) as (_ & _ & _ & Hn & _ & _ & _ & _ & Hc).
    split; [|done].
    destruct Hc as [(_ & -> & _)|(_ & n & r & -> & _)]; [done|].
    rewrite sink_closes_app. simpl. lia. }
  destruct (step_invD _ _ _ Hstep) as [(p & r & -> & H)|[(r & -> & H)|(l & -> & H)]].
  - left.
    destruct (Write_invD _ _ _ _ H) as [(e & _ & _ & ->)|[(_ & _ & err & Hf & _)|(_ & _ & _ & _ & ->)]].
    + done.
    + apply Hfl in Hf. simpl in Hf. rewrite sink_closes_app in Hf. simpl in Hf.
      destruct Hf as [-> ->]. split; [lia|done].
    + simpl. rewrite sink_closes_app. simpl. split; [lia|done].
  - destruct (Close_invD _ _ _ H) as [(e & _ & _ & ->)|[(_ & e & Hf & _)|(_ & w0 & Hf & Hopen & Hc)]].
    + by left.
    + left. by apply Hfl in Hf.
    + right. apply Hfl in Hf. destruct Hf as [Hs Hn].
      split; [congruence|].
      destruct Hc as [(_ & _ & ->)|(close & s & _ & _ & ->)]; simpl.
      * split; [done|]. lia.
      * split; [done|]. rewrite sink_closes_app. simpl. lia.
  - left.
    destruct (flusher_invD _ _ _ H) as [(_ & _ & _ & ->)|[(_ & _ & _ & _ & ->)|[(_ & _ & err & w0 & Hf & ->)|(_ & _ & e & _ & ->)]]];
      try done.
    by apply Hfl in Hf.
Qed.

Lemma closed_onceD_step a w w1 :
  (sink_closes (trace w) <= if notify_closed w then 1 else 0)%nat ->
  step a w = Ok w1 ->
  (sink_closes (trace w1) <= if notify_closed w1 then 1 else 0)%nat.
Proof.
  intros Hinv Hstep.
  destruct (step_closesD _ _ _ Hstep) as [[-> ->]|(Ho & -> & Hle)]; [done|].
  rewrite Ho in Hinv. lia.
Qed.


End DeadlineConfig.

(** ** The blocking writer *)

Section WriterMore.
Import Writer.
Context {S : Type}.
Implicit Types (w : t S) (p : bytes) (e : error).

Lemma step_casesW a w w1 :
  step a w = Ok w1 ->
  (exists p, a = Call p /\ w1 = set_calls (calls w ++ [AtAppend p]) w) \/
  (exists i p, a = Go i /\ calls w !! i = Some (AtAppend p) /\
     w1 = set_calls (<[i := AtSignal p]> (calls w))
            (log (EvAppend p) (set_buffer (buffer w ++ p) w))) \/
  (exists i p, a = Go i /\ calls w !! i = Some (AtSignal p) /\
     w1 = set_calls (<[i := Waiting p]> (calls w)) (set_notify true w)) \/
  (exists i p, a = Go i /\ calls w !! i = Some (Woken p) /\
     w1 = set_calls
            (<[i := Returned p (fst (Write_result p (err w)))
                                (snd (Write_result p (err w)))]> (calls w)) w) \/
  (exists r, a = DoClose /\ Close w = Ok (r, w1)) \/
  (exists l, a = DoFlusher l /\ flusher l w = Ok w1).
Proof.
  destruct a as [p|i| |l]; simpl.
  - intros; simplify_eq. left. eauto.
  - destruct (calls w !! i) as [c|] eqn:Hi; [|done].
    destruct (Write c w) as [[c1 w0]| |] eqn:HW; simpl; try done.
    intros; simplify_eq. simpl. right.
    destruct (Write_invW _ _ _ _ HW) as [(p & -> & -> & ->)|[(p & -> & -> & ->)|(p & -> & -> & ->)]].
    + left. eauto.
    + right; left. eauto.
    + right; right; left. eauto.
  - destruct (Close w) as [[r w0]| |] eqn:HC; simpl; try done.
    intros; simplify_eq. do 4 right. left. eauto.
  - intros. do 5 right. eauto.
Qed.

Lemma Close_invW w r w1 :
  Close w = Ok (r, w1) ->
  quit w = false /\
  (io_Close (writer w) = None /\ r = None /\ w1 = set_quit true w \/
   exists close s, io_Close (writer w) = Some close /\
     close (io_state (writer w)) = (r, s) /\
     w1 = set_writer (io_with_state (writer w) s)
            (log (EvSinkClose r) (set_quit true w))).
Proof.
  unfold Close. destruct (quit w); [done|]. split; [done|]. revert H. simpl.
  destruct (io_Close (writer w)) as [close|].
  - destruct (close (io_state (writer w))) as [r0 s] eqn:Hc.
    intros; simplify_eq. right. eauto.
  - intros; simplify_eq. by left.
Qed.

Lemma flusher_invW l w w1 :
  flusher l w = Ok w1 ->
  (l = RecvQuit /\ flusher_pc w = AtSelect /\ quit w = true /\
     w1 = set_pc Exited w) \/
  (l = Recv /\ flusher_pc w = AtSelect /\ notify w = true /\
     w1 = set_pc AtCheck (set_notify false w)) \/
  (l = SizeCheck /\ flusher_pc w = AtCheck /\
     w1 = set_pc (if bufferSize w <? maxSize w then AtSleep else AtLock) w) \/
  (l = Wake /\ flusher_pc w = AtSleep /\ w1 = set_pc AtLock w) \/
  (l = Flush /\ flusher_pc w = AtLock /\ w1 = set_pc AtBroadcast (flush w)) \/
  (l = Broadcast /\ flusher_pc w = AtBroadcast /\
     w1 = set_pc AtSelect (set_calls (wake <$> calls w) w)).
Proof.
  unfold flusher. destruct l, (flusher_pc w) eqn:Hpc; try done.
  - destruct (quit w) eqn:Hq; [|done]. intros; simplify_eq. by left.
  - destruct (notify w) eqn:Hn; [|done]. intros; simplify_eq. right; by left.
  - intros Hw1. do 2 right. left. split; [done|]. split; [done|].
    destruct (bufferSize w <? maxSize w); by simplify_eq.
  - intros; simplify_eq. do 3 right. by left.
  - intros; simplify_eq. do 4 right. by left.
  - intros; simplify_eq. do 5 right. done.
Qed.

(** A flush keeps the configuration and the sink's methods. *)
Lemma flush_config w :
  timeout (flush w) = timeout w /\
  io_Write (writer (flush w)) = io_Write (writer w) /\
  io_Close (writer (flush w)) = io_Close (writer w).
Proof.
  destruct (decide (buffer w = [])) as [Hb|Hb].
  - by rewrite flush_empty.
  - destruct (call_Write (writer w) (buffer w)) as [[n r] k] eqn:Hcall.
    rewrite (flush_nonempty _ _ _ _ Hb Hcall). simpl.
    unfold call_Write in Hcall. destruct (io_Write _ _ _) as [[? ?] ?].
    simplify_eq. by destruct (call_succeeded (buffer w) n r).
Qed.

Lemma waiting_not_woken (cs : list call) i p :
  (wake <$> cs) !! i <> Some (Waiting p).
Proof.
  rewrite list_lookup_fmap. destruct (cs !! i) as [c|]; simpl; [|done].
  by destruct c.
Qed.

End WriterMore.

Section WriterInvariants.
Import Writer.
Context {S : Type}.
Implicit Types (w : t S) (p : bytes) (e : error).

(** No step changes the configuration or the sink's methods. *)
Lemma step_configW a w w1 :
  step a w = Ok w1 ->
  timeout w1 = timeout w /\ maxSize w1 = maxSize w /\
  io_Write (writer w1) = io_Write (writer w) /\
  io_Close (writer w1) = io_Close (writer w).
Proof.
  intros Hstep.
  destruct (step_casesW _ _ _ Hstep)
    as [(p & _ & ->)|[(i & p & _ & _ & ->)|[(i & p & _ & _ & ->)|[(i & p & _ & _ & ->)|[(r & _ & H)|(l & _ & H)]]]]];
    try done.
  - destruct (Close_invW _ _ _ H) as (_ & [(_ & _ & ->)|(close & s & _ & _ & ->)]); done.
  - destruct (flusher_invW _ _ _ H)
      as [(_ & _ & _ & ->)|[(_ & _ & _ & ->)|[(_ & _ & ->)|[(_ & _ & ->)|[(_ & _ & ->)|(_ & _ & ->)]]]]];
      try done.
    simpl. destruct (flush_config w) as (? & ? & ?).
    destruct (flush_frame w) as (_ & _ & _ & _ & ? & _). done.
Qed.

(** A step leaves the number of calls of the sink's [Close] and [w.quit] as
    they are, or it closes [w.quit], which was open, and calls the sink's
    [Close] at most once. *)
Lemma step_closesW a w w1 :
  step a w = Ok w1 ->
  sink_closes (trace w1) = sink_closes (trace w) /\ quit w1 = quit w \/
  quit w = false /\ quit w1 = true /\
    (sink_closes (trace w1) <= sink_closes (trace w) + 1)%nat.
Proof.
  intros Hstep.
  destruct (step_casesW _ _ _ Hstep)
    as [(p & _ & ->)|[(i & p & _ & _ & ->)|[(i & p & _ & _ & ->)|[(i & p & _ & _ & ->)|[(r & _ & H)|(l & _ & H)]]]]];
    simpl; try (by left).
  - left. rewrite sink_closes_app. simpl. split; [lia|done].
  - right. destruct (Close_invW _ _ _ H) as (Hq & [(_ & _ & ->)|(close & s & _ & _ & ->)]);
      simpl; (split; [done|]); (split; [done|]); [lia|].
    rewrite sink_closes_app. simpl. lia.
  - left. destruct (flusher_invW _ _ _ H)
      as [(_ & _ & _ & ->)|[(_ & _ & _ & ->)|[(_ & _ & ->)|[(_ & _ & ->)|[(_ & _ & ->)|(_ & _ & ->)]]]]];
      try done.
    simpl. destruct (flush_frame w) as (_ & Hq & _ & _ & _ & [(_ & ->)|(_ & n & r & -> & _)]);
      [done|].
    rewrite sink_closes_app. simpl. split; [lia|done].
Qed.

Lemma closed_onceW_step a w w1 :
  (sink_closes (trace w) <= if quit w then 1 else 0)%nat ->
  step a w = Ok w1 ->
  (sink_closes (trace w1) <= if quit w1 then 1 else 0)%nat.
Proof.
  intros Hinv Hstep.
  destruct (step_closesW _ _ _ Hstep) as [[-> ->]|(Ho & -> & Hle)]; [done|].
  rewrite Ho in Hinv. lia.
Qed.


Lemma no_lost_wakeup_step a w w1 :
  no_lost_wakeup w -> step a w = Ok w1 -> no_lost_wakeup w1.
Proof.
  intros Hinv Hstep j q.
  destruct (step_casesW _ _ _ Hstep)
    as [(p & _ & ->)|[(i & p & _ & Hi & ->)|[(i & p & _ & Hi & ->)|[(i & p & _ & Hi & ->)|[(r & _ & H)|(l & _ & H)]]]]];
    simpl.
  - intros [Hj|[_ Hj]]%lookup_app_Some; [exact (Hinv _ _ Hj)|].
    destruct (j - length (calls w))%nat as [|[|]]; simpl in Hj; done.
  - intros [(_ & ? & _)|(_ & Hj)]%list_lookup_insert_Some; [done|].
    exact (Hinv _ _ Hj).
  - done.
  - intros [(_ & ? & _)|(_ & Hj)]%list_lookup_insert_Some; [done|].
    exact (Hinv _ _ Hj).
  - destruct (Close_invW _ _ _ H) as (_ & [(_ & _ & ->)|(close & s & _ & _ & ->)]);
      simpl; apply Hinv.
  - destruct (flusher_invW _ _ _ H)
      as [(_ & _ & _ & ->)|[(_ & _ & _ & ->)|[(_ & _ & ->)|[(_ & _ & ->)|[(_ & _ & ->)|(_ & _ & ->)]]]]];
      simpl; try done.
    + by destruct (bufferSize w <? maxSize w).
    + intros Hj. by apply waiting_not_woken in Hj.
Qed.

(** Once the flusher has exited, no step calls the sink's [Write] or wakes
    a parked call. *)
Lemma exited_step a w w1 :
  flusher_pc w = Exited -> step a w = Ok w1 ->
  flusher_pc w1 = Exited /\
  sink_calls (trace w1) = sink_calls (trace w) /\
  forall i p, calls w !! i = Some (Waiting p) -> calls w1 !! i = Some (Waiting p).
Proof.
  intros Hpc Hstep.
  destruct (step_casesW _ _ _ Hstep)
    as [(p & _ & ->)|[(i & p & _ & Hi & ->)|[(i & p & _ & Hi & ->)|[(i & p & _ & Hi & ->)|[(r & _ & H)|(l & _ & H)]]]]];
    simpl.
  - split; [done|]. split; [done|]. intros j q Hj. by apply lookup_app_l_Some.
  - split; [done|]. rewrite sink_calls_app. simpl. rewrite app_nil_r.
    split; [done|]. intros j q Hj.
    rewrite list_lookup_insert_ne; [done|]. intros ->. congruence.
  - split; [done|]. split; [done|]. intros j q Hj.
    rewrite list_lookup_insert_ne; [done|]. intros ->. congruence.
  - split; [done|]. split; [done|]. intros j q Hj.
    rewrite list_lookup_insert_ne; [done|]. intros ->. congruence.
  - destruct (Close_invW _ _ _ H) as (_ & [(_ & _ & ->)|(close & s & _ & _ & ->)]);
      simpl; [done|].
    split; [done|]. rewrite sink_calls_app. simpl. by rewrite app_nil_r.
  - destruct (flusher_invW _ _ _ H)
      as [(_ & ? & _)|[(_ & ? & _)|[(_ & ? & _)|[(_ & ? & _)|[(_ & ? & _)|(_ & ? & _)]]]]];
      congruence.
Qed.

(** The calls that have returned acknowledged all of their payload or none
    of it. *)
Lemma all_or_nothing_step a w w1 :
  (forall i p n r, calls w !! i = Some (Returned p n r) -> all_or_nothing p n r) ->
  step a w = Ok w1 ->
  forall i p n r, calls w1 !! i = Some (Returned p n r) -> all_or_nothing p n r.
Proof.
  intros Hinv Hstep j q n r.
  destruct (step_casesW _ _ _ Hstep)
    as [(p & _ & ->)|[(i & p & _ & Hi & ->)|[(i & p & _ & Hi & ->)|[(i & p & _ & Hi & ->)|[(r0 & _ & H)|(l & _ & H)]]]]];
    simpl.
  - intros [Hj|[_ Hj]]%lookup_app_Some; [by eapply Hinv|].
    destruct (j - length (calls w))%nat as [|[|]]; simpl in Hj; done.
  - intros [(_ & ? & _)|(_ & Hj)]%list_lookup_insert_Some; [done|]. by eapply Hinv.
  - intros [(_ & ? & _)|(_ & Hj)]%list_lookup_insert_Some; [done|]. by eapply Hinv.
  - intros [(_ & Heq & _)|(_ & Hj)]%list_lookup_insert_Some; [|by eapply Hinv].
    simplify_eq. unfold all_or_nothing, Write_result.
    destruct (err w); simpl; [right; eauto|by left].
  - destruct (Close_invW _ _ _ H) as (_ & [(_ & _ & ->)|(close & s & _ & _ & ->)]);
      simpl; apply Hinv.
  - destruct (flusher_invW _ _ _ H)
      as [(_ & _ & _ & ->)|[(_ & _ & _ & ->)|[(_ & _ & ->)|[(_ & _ & ->)|[(_ & _ & ->)|(_ & _ & ->)]]]]];
      simpl; try apply Hinv.
    + destruct (flush_frame w) as (_ & _ & -> & _). apply Hinv.
    + rewrite list_lookup_fmap. destruct (calls w !! j) as [c|] eqn:Hj; [|done].
      destruct c; simpl; try done. intros; simplify_eq. by eapply Hinv.
Qed.

End WriterInvariants.

Section WriterReturns.
Import Writer.
Context {S : Type}.
Implicit Types (w : t S) (p : bytes) (e : error).



(** Without a broadcast, a call is past its wait only if it was before. *)
Lemma no_broadcast_step a w w1 i p n r :
  no_broadcast a = true -> step a w = Ok w1 ->
  past_the_wait w1 i p n r -> past_the_wait w i p n r.
Proof.
  intros Hq Hstep. unfold past_the_wait.
  destruct (step_casesW _ _ _ Hstep)
    as [(q & _ & ->)|[(j & q & _ & Hj & ->)|[(j & q & _ & Hj & ->)|[(j & q & _ & Hj & ->)|[(r0 & _ & H)|(l & -> & H)]]]]];
    simpl.
  - intros [[Hi|[_ Hi]]%lookup_app_Some|[Hi|[_ Hi]]%lookup_app_Some]; eauto;
      destruct (i - length (calls w))%nat as [|[|]]; simpl in Hi; done.
  - intros [[(_ & ? & _)|(_ & Hi)]%list_lookup_insert_Some
           |[(_ & ? & _)|(_ & Hi)]%list_lookup_insert_Some]; eauto; done.
  - intros [[(_ & ? & _)|(_ & Hi)]%list_lookup_insert_Some
           |[(_ & ? & _)|(_ & Hi)]%list_lookup_insert_Some]; eauto; done.
  - intros [[(<- & Heq & _)|(_ & Hi)]%list_lookup_insert_Some
           |[(_ & ? & _)|(_ & Hi)]%list_lookup_insert_Some]; eauto; [|done].
    simplify_eq. by right.
  - by destruct (Close_invW _ _ _ H) as (_ & [(_ & _ & ->)|(close & s & _ & _ & ->)]).
  - destruct (flusher_invW _ _ _ H)
      as [(_ & _ & _ & ->)|[(_ & _ & _ & ->)|[(_ & _ & ->)|[(_ & _ & ->)|[(_ & _ & ->)|(-> & _)]]]]];
      simpl; try done.
    destruct (flush_frame w) as (_ & _ & -> & _). done.
Qed.

End WriterReturns.

(** ** The counting sink of the tests *)

Lemma uint_incr_mod (x : Z) :
  0 <= x -> writer_test.uint_incr (x mod 2 ^ 64) = (x + 1) mod 2 ^ 64.
Proof.
  intros Hx. unfold writer_test.uint_incr.
  assert (HM : 0 < 2 ^ 64) by done.
  generalize dependent (2 ^ 64). intros M HM.
  pose proof (Z.mod_pos_bound x M HM) as Hr.
  rewrite <- (Zplus_mod_idemp_l x 1).
  destruct (Z.eqb_spec (x mod M + 1) M) as [Heq|Hne].
  - rewrite Heq. symmetry. apply Z_mod_same_full.
  - rewrite (Z.mod_small (x mod M + 1)); [done|lia].
Qed.

(** The counting sink accepts a write in full and counts it. *)
Lemma counted_call k tr p :
  counted k tr ->
  exists k1, call_Write k p = (len p, None, k1) /\
             counted k1 (tr ++ [EvSinkWrite p (len p) None]).
Proof.
  intros (Hw & Hc & He & Hn). unfold call_Write. rewrite Hw.
  unfold writer_test.countingWriter_Write. rewrite He.
  eexists. split; [done|]. unfold counted. simpl.
  split; [done|]. split; [done|]. split; [done|].
  rewrite Hn, sink_calls_app, length_app. simpl.
  rewrite uint_incr_mod by lia. f_equal. lia.
Qed.

Lemma counted_stepD a (w w1 : DeadlineBufWriter.t writer_test.countingWriter) :
  counted (DeadlineBufWriter.writer w) (DeadlineBufWriter.trace w) ->
  DeadlineBufWriter.step a w = Ok w1 ->
  counted (DeadlineBufWriter.writer w1) (DeadlineBufWriter.trace w1).
Proof.
  intros Hinv Hstep.
  assert (Hlog : forall k tr ev, sink_calls [ev] = [] -> counted k tr ->
            counted k (tr ++ [ev])).
  { intros k tr ev Hev (? & ? & ? & Hn). unfold counted.
    by rewrite sink_calls_app, Hev, app_nil_r. }
  assert (Hfl : forall w err w1, 
            counted (DeadlineBufWriter.writer w) (DeadlineBufWriter.trace w) ->
            DeadlineBufWriter.flushLocked w = (err, w1) ->
            counted (DeadlineBufWriter.writer w1) (DeadlineBufWriter.trace w1)).
  { intros w0 err w2 Hc. unfold DeadlineBufWriter.flushLocked.
    destruct (len (DeadlineBufWriter.buffer w0) =? 0); [by intros; simplify_eq|].
    destruct (counted_call _ _ (DeadlineBufWriter.buffer w0) Hc) as (k1 & -> & Hc1).
    intros; by simplify_eq. }
  destruct (step_invD _ _ _ Hstep) as [(p & r & -> & H)|[(r & -> & H)|(l & -> & H)]].
  - destruct (Write_invD _ _ _ _ H) as [(e & _ & _ & ->)|[(_ & _ & err & Hf & _)|(_ & _ & _ & _ & ->)]].
    + done.
    + eapply Hfl; [|exact Hf]. simpl. by apply Hlog.
    + simpl. by apply Hlog.
  - destruct (Close_invD _ _ _ H) as [(e & _ & _ & ->)|[(_ & e & Hf & _)|(_ & w0 & Hf & _ & Hc)]].
    + done.
    + by eapply Hfl.
    + specialize (Hfl _ _ _ Hinv Hf).
      destruct Hc as [(_ & _ & ->)|(close & s & Hcl & _ & _)]; [done|].
      destruct Hfl as (_ & ? & _). congruence.
  - destruct (flusher_invD _ _ _ H) as [(_ & _ & _ & ->)|[(_ & _ & _ & _ & ->)|[(_ & _ & err & w0 & Hf & ->)|(_ & _ & e & _ & ->)]]];
      simpl; try done.
    by eapply Hfl.
Qed.

Lemma counted_stepW a (w w1 : Writer.t writer_test.countingWriter) :
  counted (Writer.writer w) (Writer.trace w) ->
  Writer.step a w = Ok w1 ->
  counted (Writer.writer w1) (Writer.trace w1).
Proof.
  intros Hinv Hstep.
  destruct (step_casesW _ _ _ Hstep)
    as [(p & _ & ->)|[(i & p & _ & Hi & ->)|[(i & p & _ & Hi & ->)|[(i & p & _ & Hi & ->)|[(r0 & _ & H)|(l & _ & H)]]]]];
    simpl; try done.
  - destruct Hinv as (? & ? & ? & Hn). unfold counted.
    rewrite sink_calls_app. simpl. by rewrite app_nil_r.
  - destruct (Close_invW _ _ _ H) as (_ & [(_ & _ & ->)|(close & s & Hcl & _ & _)]);
      [done|].
    destruct Hinv as (_ & ? & _). congruence.
  - destruct (flusher_invW _ _ _ H)
      as [(_ & _ & _ & ->)|[(_ & _ & _ & ->)|[(_ & _ & ->)|[(_ & _ & ->)|[(_ & _ & ->)|(_ & _ & ->)]]]]];
      simpl; try done.
    destruct (decide (Writer.buffer w = [])) as [Hb|Hb].
    + by rewrite flush_empty.
    + destruct (counted_call _ _ (Writer.buffer w) Hinv) as (k1 & Hcall & Hc1).
      rewrite (flush_nonempty _ _ _ _ Hb Hcall). simpl.
      by rewrite Z.ltb_irrefl.
Qed.

(** ** Shutdown of the blocking writer *)

(** X1.  Once the flusher of a blocking [Writer] has exited, it stays
    exited: along every further run the sink's [Write] is never called
    again, and every call parked in [cond.Wait] stays parked. *)
Theorem Writer_exit_strands_waiters {S : Type} (w w1 : Writer.t S) sched :
  Writer.flusher_pc w = Writer.Exited ->
  Writer.run sched w = Ok w1 ->
  Writer.flusher_pc w1 = Writer.Exited /\
  sink_calls (Writer.trace w1) = sink_calls (Writer.trace w) /\
  forall i p,
    Writer.calls w !! i = Some (Writer.Waiting p) ->
    Writer.calls w1 !! i = Some (Writer.Waiting p).
Proof.
  revert w. induction sched as [|a sched IH]; intros w Hpc; simpl.
  - intros; by simplify_eq.
  - destruct (Writer.step a w) as [w0| |] eqn:Hstep; simpl; try done.
    intros Hrun. destruct (exited_step _ _ _ Hpc Hstep) as (Hpc0 & Hs0 & Hw0).
    destruct (IH _ Hpc0 Hrun) as (Hpc1 & Hs1 & Hw1).
    split; [done|]. split; [congruence|]. eauto.
Qed.

(** X3.  [Writer.Close] does not flush: the buffer, the calls in flight,
    [w.err] and the sink's [Write] calls are as before; without an
    [io.Closer] it returns [nil].  It closes [w.quit], so a second [Close]
    panics, and a flusher waiting at its [select] can now exit. *)
Theorem Writer_Close_does_not_flush {S : Type} (w w1 : Writer.t S) r :
  Writer.Close w = Ok (r, w1) ->
  Writer.buffer w1 = Writer.buffer w /\
  sink_calls (Writer.trace w1) = sink_calls (Writer.trace w) /\
  Writer.calls w1 = Writer.calls w /\
  Writer.err w1 = Writer.err w /\
  (io_Close (Writer.writer w) = None -> r = None) /\
  Writer.Close w1 = Panic /\
  (Writer.flusher_pc w = Writer.AtSelect ->
   exists w2, Writer.flusher Writer.RecvQuit w1 = Ok w2 /\
              Writer.flusher_pc w2 = Writer.Exited).
Proof.
  intros HC.
  destruct (Close_invW _ _ _ HC) as (Hq & [(Hn & -> & ->)|(close & s & Hcl & Hr & ->)]);
    simpl.
  - do 5 (split; [done|]). split; [done|].
    intros Hpc. unfold Writer.flusher. simpl. rewrite Hpc. by eexists.
  - split; [done|]. rewrite sink_calls_app. simpl. rewrite app_nil_r.
    do 3 (split; [done|]). split; [congruence|]. split; [done|].
    intros Hpc. unfold Writer.flusher. simpl. rewrite Hpc. by eexists.
Qed.

(** X4.  Along every run of either variant the sink's [Close] is called at
    most once, and not before [w.quit] (blocking) or the trigger channel
    (non-blocking) has been closed. *)
Theorem sink_closed_at_most_once {S : Type} (k : io_Writer S) (timeout maxSize : Z) :
  (forall sched w,
     Writer.run sched (Writer.NewWriter k timeout maxSize) = Ok w ->
     (sink_closes (Writer.trace w) <= 1)%nat /\
     (Writer.quit w = false -> sink_closes (Writer.trace w) = 0%nat)) /\
  (forall sched w,
     DeadlineBufWriter.run sched
       (DeadlineBufWriter.NewDeadlineBufWriter k timeout maxSize) = Ok w ->
     (sink_closes (DeadlineBufWriter.trace w) <= 1)%nat /\
     (DeadlineBufWriter.notify_closed w = false ->
      sink_closes (DeadlineBufWriter.trace w) = 0%nat)).
Proof.
  split.
  - intros sched w Hrun.
    assert (sink_closes (Writer.trace w) <= if Writer.quit w then 1 else 0)%nat as H.
    { eapply (run_invariantW
                (fun w => (sink_closes (Writer.trace w)
                           <= if Writer.quit w then 1 else 0)%nat)
                closed_onceW_step); [|exact Hrun]. simpl. lia. }
    destruct (Writer.quit w); split; intros; try done; lia.
  - intros sched w Hrun.
    assert (sink_closes (DeadlineBufWriter.trace w)
            <= if DeadlineBufWriter.notify_closed w then 1 else 0)%nat as H.
    { eapply (run_invariantD
                (fun w => (sink_closes (DeadlineBufWriter.trace w)
                           <= if DeadlineBufWriter.notify_closed w then 1 else 0)%nat)
                closed_onceD_step); [|exact Hrun]. simpl. lia. }
    destruct (DeadlineBufWriter.notify_closed w); split; intros; try done; lia.
Qed.


(** ** Waiting and returning in the blocking writer *)

(** X5.  No wake-up is lost: along every run of a blocking [Writer],
    whenever a call is parked in [cond.Wait] and the flusher is at its
    [select], a trigger is pending in [w.notify], so that an iteration ending
    in a broadcast lies ahead. *)
Theorem Writer_no_lost_wakeup {S : Type} (k : io_Writer S) (timeout maxSize : Z)
    sched w i p :
  Writer.run sched (Writer.NewWriter k timeout maxSize) = Ok w ->
  Writer.calls w !! i = Some (Writer.Waiting p) ->
  Writer.flusher_pc w = Writer.AtSelect ->
  Writer.notify w = true.
Proof.
  intros Hrun.
  eapply (run_invariantW no_lost_wakeup no_lost_wakeup_step); [|exact Hrun].
  intros j q Hj. done.
Qed.

(** X10.  A [Write] on the blocking [Writer] does not return before a
    broadcast: along a schedule without the flusher's broadcast step, a call
    that has returned had already returned, with the same result, or had
    already been woken. *)
Theorem Writer_no_return_without_broadcast {S : Type} (w w1 : Writer.t S)
    sched i p n r :
  Forall (fun a => no_broadcast a = true) sched ->
  Writer.run sched w = Ok w1 ->
  Writer.calls w1 !! i = Some (Writer.Returned p n r) ->
  Writer.calls w !! i = Some (Writer.Returned p n r) \/
  Writer.calls w !! i = Some (Writer.Woken p).
Proof.
  intros Hq Hrun Hret.
  cut (past_the_wait w i p n r); [done|].
  assert (Hend : past_the_wait w1 i p n r) by (by left).
  clear Hret. revert w Hrun.
  induction Hq as [|a sched Ha Hq IH]; intros w; simpl.
  - intros; by simplify_eq.
  - destruct (Writer.step a w) as [w0| |] eqn:Hstep; simpl; try done.
    intros Hrun. eapply no_broadcast_step; eauto.
Qed.

(** X12.  In the blocking [Writer], [w.err] is never reset: once it is set
    it is set along every further run, and every call woken from then on
    returns [(0, err)] with some error. *)
Theorem Writer_error_is_sticky {S : Type} (w w1 : Writer.t S) sched :
  is_Some (Writer.err w) ->
  Writer.run sched w = Ok w1 ->
  is_Some (Writer.err w1) /\
  forall i p w2,
    Writer.calls w1 !! i = Some (Writer.Woken p) ->
    Writer.step (Writer.Go i) w1 = Ok w2 ->
    exists e, Writer.calls w2 !! i = Some (Writer.Returned p 0 (Some e)).
Proof.
  intros He Hrun.
  assert (He1 : is_Some (Writer.err w1)).
  { eapply (run_invariantW (fun w => is_Some (Writer.err w)) err_stays_set);
      [exact He|exact Hrun]. }
  split; [done|]. intros i p w2 Hi. simpl. rewrite Hi. simpl.
  destruct He1 as [e He1]. rewrite He1. simpl. intros; simplify_eq. simpl.
  exists e. apply list_lookup_insert_eq. by eapply lookup_lt_Some.
Qed.

(** X7.  Neither variant ever acknowledges part of a payload: a
    [DeadlineBufWriter.Write] returns [(len(p), nil)] or [(0, err)], and so
    does every call that has returned along a run of the blocking
    [Writer]. *)
Theorem Write_all_or_nothing {S : Type} (k : io_Writer S) (timeout maxSize : Z) :
  (forall (w w1 : DeadlineBufWriter.t S) p n r,
     DeadlineBufWriter.Write p w = Ok (n, r, w1) -> all_or_nothing p n r) /\
  (forall sched w i p n r,
     Writer.run sched (Writer.NewWriter k timeout maxSize) = Ok w ->
     Writer.calls w !! i = Some (Writer.Returned p n r) ->
     all_or_nothing p n r).
Proof.
  split.
  - intros w w1 p n r. apply Deadline_Write_all_or_nothing.
  - intros sched w i p n r Hrun.
    revert i p n r.
    eapply (run_invariantW
              (fun w => forall i p n r,
                          Writer.calls w !! i = Some (Writer.Returned p n r) ->
                          all_or_nothing p n r)
              all_or_nothing_step); [|exact Hrun].
    intros i p n r Hi. done.
Qed.

(** ** Sinks that do not fail *)


(** X9.  Along every run of either variant over the tests' [countingWriter]
    with no error set, [nWrites] is the number of calls made on the sink's
    [Write] (as a [uint]): the tests count sink calls. *)
Theorem countingWriter_counts_sink_calls (timeout maxSize : Z) :
  (forall sched w,
     Writer.run sched (Writer.NewWriter (writer_test.cw None) timeout maxSize) = Ok w ->
     writer_test.nWrites (io_state (Writer.writer w))
     = Z.of_nat (length (sink_calls (Writer.trace w))) mod 2 ^ 64) /\
  (forall sched w,
     DeadlineBufWriter.run sched
       (DeadlineBufWriter.NewDeadlineBufWriter (writer_test.cw None) timeout maxSize)
     = Ok w ->
     writer_test.nWrites (io_state (DeadlineBufWriter.writer w))
     = Z.of_nat (length (sink_calls (DeadlineBufWriter.trace w))) mod 2 ^ 64).
Proof.
  assert (H0 : counted (writer_test.cw None) []).
  { unfold counted. simpl. split; [done|]. split; [done|]. split; done. }
  split.
  - intros sched w Hrun.
    assert (Hc : counted (Writer.writer w) (Writer.trace w)).
    { eapply (run_invariantW
                (fun w => counted (Writer.writer w) (Writer.trace w))
                counted_stepW); [|exact Hrun]. exact H0. }
    by destruct Hc as (_ & _ & _ & ?).
  - intros sched w Hrun.
    assert (Hc : counted (DeadlineBufWriter.writer w) (DeadlineBufWriter.trace w)).
    { eapply (run_invariantD
                (fun w => counted (DeadlineBufWriter.writer w)
                                  (DeadlineBufWriter.trace w))
                counted_stepD); [|exact Hrun]. exact H0. }
    by destruct Hc as (_ & _ & _ & ?).
Qed.

(** ** Configuration and closing *)

(** X11.  The configuration is fixed at construction: along every run,
    [Timeout()] and [MaxSize()] of a blocking [Writer] return the arguments
    of [NewWriter], and the fields of a [DeadlineBufWriter] are those given
    to [NewDeadlineBufWriter]. *)
Theorem configuration_is_constant {S : Type} (k : io_Writer S)
    (timeout maxSize : Z) :
  (forall sched w,
     Writer.run sched (Writer.NewWriter k timeout maxSize) = Ok w ->
     Writer.Timeout w = timeout /\ Writer.MaxSize w = maxSize) /\
  (forall sched w,
     DeadlineBufWriter.run sched
       (DeadlineBufWriter.NewDeadlineBufWriter k timeout maxSize) = Ok w ->
     DeadlineBufWriter.timeout w = timeout /\
     DeadlineBufWriter.maxSize w = maxSize).
Proof.
  split.
  - intros sched w Hrun.
    apply (run_invariantW
             (fun w => Writer.Timeout w = timeout /\ Writer.MaxSize w = maxSize))
      with (sched := sched) (w := Writer.NewWriter k timeout maxSize);
      [|split; reflexivity|exact Hrun].
    intros a w0 w1 [Ht Hm] Hstep.
    destruct (step_configW _ _ _ Hstep) as (Ht1 & Hm1 & _).
    unfold Writer.Timeout, Writer.MaxSize in *. split; congruence.
  - intros sched w Hrun.
    apply (run_invariantD
             (fun w => DeadlineBufWriter.timeout w = timeout /\
                       DeadlineBufWriter.maxSize w = maxSize))
      with (sched := sched)
           (w := DeadlineBufWriter.NewDeadlineBufWriter k timeout maxSize);
      [|split; reflexivity|exact Hrun].
    intros a w0 w1 [Ht Hm] Hstep.
    destruct (step_configD _ _ _ Hstep) as (Ht1 & Hm1 & _). split; congruence.
Qed.


(** ** Where the errors come from *)

Lemma from_sink_app e tr tr1 : from_sink e tr -> from_sink e (tr ++ tr1).
Proof.
  intros [->|(p & n & Hin)]; [by left|].
  right. exists p, n. apply in_or_app. by left.
Qed.

Lemma from_sink_last e p n r tr :
  (if negb (n =? len p) then Some ErrShortWrite else r) = Some e ->
  from_sink e (tr ++ [EvSinkWrite p n r]).
Proof.
  destruct (negb (n =? len p)); intros; simplify_eq; [by left|].
  right. exists p, n. apply in_or_app. right. by left.
Qed.

Lemma provenance_stepD {S : Type} a (w w1 : DeadlineBufWriter.t S) :
  ((forall e, DeadlineBufWriter.errors w = Some e ->
      from_sink e (DeadlineBufWriter.trace w)) /\
   (forall e, DeadlineBufWriter.flusher_pc w = DeadlineBufWriter.AtSend e ->
      from_sink e (DeadlineBufWriter.trace w))) ->
  DeadlineBufWriter.step a w = Ok w1 ->
  (forall e, DeadlineBufWriter.errors w1 = Some e ->
     from_sink e (DeadlineBufWriter.trace w1)) /\
  (forall e, DeadlineBufWriter.flusher_pc w1 = DeadlineBufWriter.AtSend e ->
     from_sink e (DeadlineBufWriter.trace w1)).
Proof.
  intros [He Hpc] Hstep.
  destruct (step_traceD _ _ _ Hstep) as [tr Htr].
  destruct (step_invD _ _ _ Hstep) as [(p & r & -> & H)|[(r & -> & H)|(l & -> & H)]].
  - assert (DeadlineBufWriter.flusher_pc w1 = DeadlineBufWriter.flusher_pc w /\
            (DeadlineBufWriter.errors w1 = DeadlineBufWriter.errors w \/
             DeadlineBufWriter.errors w1 = None)) as [Hp1 He1].
    { destruct (Write_invD _ _ _ _ H) as [(e & _ & _ & ->)|[(_ & _ & err & Hf & _)|(_ & _ & _ & _ & ->)]];
        simpl; [by split; [|right]| |by split; [|left]].
      destruct (flushLocked_frame _ _ _ Hf) as (_ & ? & _ & _ & ? & _).
      split; [done|by left]. }
    rewrite Htr, Hp1. split.
    + intros e Hw1. apply from_sink_app. destruct He1 as [He1|He1]; [|congruence].
      apply He. congruence.
    + intros e Hw1. apply from_sink_app. by apply Hpc.
  - assert (DeadlineBufWriter.flusher_pc w1 = DeadlineBufWriter.flusher_pc w /\
            (DeadlineBufWriter.errors w1 = DeadlineBufWriter.errors w \/
             DeadlineBufWriter.errors w1 = None)) as [Hp1 He1].
    { destruct (Close_invD _ _ _ H) as [(e & _ & _ & ->)|[(_ & e & Hf & _)|(_ & w0 & Hf & _ & Hc)]];
        simpl; [by split; [|right]| |].
      - destruct (flushLocked_frame _ _ _ Hf) as (_ & ? & _ & _ & ? & _).
        split; [done|by left].
      - destruct (flushLocked_frame _ _ _ Hf) as (_ & ? & _ & _ & ? & _).
        destruct Hc as [(_ & _ & ->)|(close & s & _ & _ & ->)]; simpl;
          (split; [done|by left]). }
    rewrite Htr, Hp1. split.
    + intros e Hw1. apply from_sink_app. destruct He1 as [He1|He1]; [|congruence].
      apply He. congruence.
    + intros e Hw1. apply from_sink_app. by apply Hpc.
  - destruct (flusher_invD _ _ _ H) as [(_ & _ & _ & ->)|[(_ & _ & _ & _ & ->)|[(_ & _ & err & w0 & Hf & ->)|(_ & _ & e0 & Hs & ->)]]];
      simpl in *.
    + split; [done|]. intros e ?; done.
    + split; [done|]. intros e ?; done.
    + destruct (flushLocked_frame _ _ _ Hf) as (_ & He0 & _ & _ & _ & _ & _ & _ & Hc).
      split.
      * intros e Hw1. rewrite Htr. apply from_sink_app. apply He. congruence.
      * intros e Hw1. destruct err as [e1|]; simplify_eq.
        destruct Hc as [(_ & _ & ?)|(_ & n & r & -> & Herr)]; [done|].
        by apply from_sink_last.
    + split; [|intros e ?; done].
      intros e ?; simplify_eq. by apply Hpc.
Qed.

Lemma provenance_stepW {S : Type} a (w w1 : Writer.t S) :
  ((forall e, Writer.err w = Some e -> from_sink e (Writer.trace w)) /\
   (forall i p n e, Writer.calls w !! i = Some (Writer.Returned p n (Some e)) ->
      from_sink e (Writer.trace w))) ->
  Writer.step a w = Ok w1 ->
  (forall e, Writer.err w1 = Some e -> from_sink e (Writer.trace w1)) /\
  (forall i p n e, Writer.calls w1 !! i = Some (Writer.Returned p n (Some e)) ->
     from_sink e (Writer.trace w1)).
Proof.
  intros [He Hc] Hstep.
  destruct (step_casesW _ _ _ Hstep)
    as [(p & _ & ->)|[(i & p & _ & Hi & ->)|[(i & p & _ & Hi & ->)|[(i & p & _ & Hi & ->)|[(r0 & _ & H)|(l & _ & H)]]]]];
    simpl.
  - split; [done|].
    intros j q n e [Hj|[_ Hj]]%lookup_app_Some; [by eapply Hc|].
    destruct (j - length (Writer.calls w))%nat as [|[|]]; simpl in Hj; done.
  - split; [intros e ?; by apply from_sink_app, He|].
    intros j q n e [(_ & ? & _)|(_ & Hj)]%list_lookup_insert_Some; [done|].
    apply from_sink_app. by eapply Hc.
  - split; [done|].
    intros j q n e [(_ & ? & _)|(_ & Hj)]%list_lookup_insert_Some; [done|].
    by eapply Hc.
  - split; [done|].
    intros j q n e [(_ & Heq & _)|(_ & Hj)]%list_lookup_insert_Some; [|by eapply Hc].
    destruct (Writer.err w) as [e1|] eqn:He1; simpl in Heq; simplify_eq.
    by apply He.
  - destruct (Close_invW _ _ _ H) as (_ & [(_ & _ & ->)|(close & s & _ & _ & ->)]);
      simpl; [done|].
    split; [intros e ?; by apply from_sink_app, He|].
    intros j q n e Hj. apply from_sink_app. by eapply Hc.
  - destruct (flusher_invW _ _ _ H)
      as [(_ & _ & _ & ->)|[(_ & _ & _ & ->)|[(_ & _ & ->)|[(_ & _ & ->)|[(_ & _ & ->)|(_ & _ & ->)]]]]];
      simpl; try done.
    + destruct (flush_frame w) as (_ & _ & Hcs & _ & _ & [(_ & ->)|(_ & n & r & Htr & Hf)]);
        [done|].
      rewrite Hcs, Htr. split.
      * intros e He1.
        destruct Hf as [(_ & _ & He2)|(Hs & _ & He2)].
        -- apply from_sink_app, He. congruence.
        -- rewrite He2 in He1. simplify_eq.
           destruct r as [e1|]; simpl; [|by left].
           right. eexists _, _. apply in_or_app. right. by left.
      * intros j q m e Hj. apply from_sink_app. by eapply Hc.
    + split; [done|]. intros j q n e. rewrite list_lookup_fmap.
      destruct (Writer.calls w !! j) as [c|] eqn:Hj; [|done].
      destruct c; simpl; try done. intros; simplify_eq. by eapply Hc.
Qed.

(** X15.  Neither variant invents errors.  Along every run, an error
    returned by [DeadlineBufWriter.Write], or by [Write] on the blocking
    [Writer], is [ErrShortWrite] or an error that a call of the sink's
    [Write] returned. *)
Theorem Write_errors_come_from_the_sink {S : Type} (k : io_Writer S)
    (timeout maxSize : Z) :
  (forall sched w p n e w1,
     DeadlineBufWriter.run sched
       (DeadlineBufWriter.NewDeadlineBufWriter k timeout maxSize) = Ok w ->
     DeadlineBufWriter.Write p w = Ok (n, Some e, w1) ->
     from_sink e (DeadlineBufWriter.trace w1)) /\
  (forall sched w i p n e,
     Writer.run sched (Writer.NewWriter k timeout maxSize) = Ok w ->
     Writer.calls w !! i = Some (Writer.Returned p n (Some e)) ->
     from_sink e (Writer.trace w)).
Proof.
  split.
  - intros sched w p n e w1 Hrun HW.
    assert (Hinv : (forall e, DeadlineBufWriter.errors w = Some e ->
                      from_sink e (DeadlineBufWriter.trace w)) /\
                   (forall e, DeadlineBufWriter.flusher_pc w = DeadlineBufWriter.AtSend e ->
                      from_sink e (DeadlineBufWriter.trace w))).
    { eapply (run_invariantD _ provenance_stepD); [|exact Hrun].
      split; intros e0 ?; done. }
    destruct Hinv as [He _].
    destruct (Write_invD _ _ _ _ HW) as [(e0 & He0 & ? & ->)|[(_ & _ & err & Hf & Hr)|(_ & _ & _ & ? & _)]];
      simplify_eq.
    + by apply He.
    + destruct err as [e1|]; simpl in Hr; simplify_eq.
      destruct (flushLocked_frame _ _ _ Hf) as (_ & _ & _ & _ & _ & _ & _ & _ & Hc).
      destruct Hc as [(_ & _ & ?)|(_ & m & r & -> & Herr)]; [done|].
      by apply from_sink_last.
  - intros sched w i p n e Hrun.
    assert (Hinv : (forall e, Writer.err w = Some e -> from_sink e (Writer.trace w)) /\
                   (forall i p n e,
                      Writer.calls w !! i = Some (Writer.Returned p n (Some e)) ->
                      from_sink e (Writer.trace w))).
    { eapply (run_invariantW _ provenance_stepW); [|exact Hrun].
      split; [intros e0 ?; done|intros j q m e0 ?; done]. }
    destruct Hinv as [_ Hc]. apply Hc.
Qed.

(** ** Bounds and early returns *)

Lemma bounded_stepD {S : Type} a (w w1 : DeadlineBufWriter.t S) :
  len (DeadlineBufWriter.buffer w) <= Z.max 0 (DeadlineBufWriter.maxSize w) ->
  DeadlineBufWriter.step a w = Ok w1 ->
  len (DeadlineBufWriter.buffer w1) <= Z.max 0 (DeadlineBufWriter.maxSize w1).
Proof.
  intros Hinv Hstep.
  destruct (step_configD _ _ _ Hstep) as (_ & -> & _).
  assert (Hfl : forall (w0 : DeadlineBufWriter.t S) err w2,
            DeadlineBufWriter.flushLocked w0 = (err, w2) ->
            len (DeadlineBufWriter.buffer w2) <= Z.max 0 (DeadlineBufWriter.maxSize w)).
  { intros w0 err w2 Hf. destruct (flushLocked_frame _ _ _ Hf) as (-> & _).
    unfold len. simpl. lia. }
  destruct (step_invD _ _ _ Hstep) as [(p & r & -> & H)|[(r & -> & H)|(l & -> & H)]].
  - destruct (Write_invD _ _ _ _ H) as [(e & _ & _ & ->)|[(_ & _ & err & Hf & _)|(_ & Hle & _ & _ & ->)]].
    + done.
    + by eapply Hfl.
    + simpl. lia.
  - destruct (Close_invD _ _ _ H) as [(e & _ & _ & ->)|[(_ & e & Hf & _)|(_ & w0 & Hf & _ & Hc)]].
    + done.
    + by eapply Hfl.
    + apply Hfl in Hf.
      by destruct Hc as [(_ & _ & ->)|(close & s & _ & _ & ->)].
  - destruct (flusher_invD _ _ _ H) as [(_ & _ & _ & ->)|[(_ & _ & _ & _ & ->)|[(_ & _ & err & w0 & Hf & ->)|(_ & _ & e & _ & ->)]]];
      simpl; try done.
    by eapply Hfl.
Qed.

Lemma run_maxSizeD {S : Type} sched (w w1 : DeadlineBufWriter.t S) :
  DeadlineBufWriter.run sched w = Ok w1 ->
  DeadlineBufWriter.maxSize w1 = DeadlineBufWriter.maxSize w.
Proof.
  intros Hrun.
  apply (run_invariantD
           (fun w0 => DeadlineBufWriter.maxSize w0 = DeadlineBufWriter.maxSize w))
    with (sched := sched) (w := w); [|done|exact Hrun].
  intros a w0 w2 Hm Hstep. destruct (step_configD _ _ _ Hstep) as (_ & ? & _).
  congruence.
Qed.

(** X17.  A [DeadlineBufWriter] never holds more than [maxSize] bytes: along
    every run the buffer length is at most [maxSize] (and the buffer is
    empty when [maxSize] is negative). *)
Theorem Deadline_buffer_is_bounded {S : Type} (k : io_Writer S)
    (timeout maxSize : Z) sched (w : DeadlineBufWriter.t S) :
  DeadlineBufWriter.run sched
    (DeadlineBufWriter.NewDeadlineBufWriter k timeout maxSize) = Ok w ->
  len (DeadlineBufWriter.buffer w) <= Z.max 0 maxSize.
Proof.
  intros Hrun.
  pose proof (run_maxSizeD _ _ _ Hrun) as Hm. simpl in Hm.
  rewrite <- Hm.
  apply (run_invariantD
           (fun w => len (DeadlineBufWriter.buffer w)
                     <= Z.max 0 (DeadlineBufWriter.maxSize w)) bounded_stepD)
    with (sched := sched)
         (w := DeadlineBufWriter.NewDeadlineBufWriter k timeout maxSize);
    [|exact Hrun].
  unfold len. simpl. lia.
Qed.

(** X16.  A [Write] on the blocking [Writer] can return success before its
    bytes have reached the sink.  Whenever the flusher stands between its
    flush and its broadcast and no error is recorded, a call that appends
    and parks now is woken by that broadcast and returns [(len(p), nil)],
    while its bytes are still in the buffer and the sink has not been called
    for them; a trigger is left pending. *)
Theorem Writer_Write_can_return_before_its_flush {S : Type} (w : Writer.t S)
    (p : bytes) :
  Writer.flusher_pc w = Writer.AtBroadcast ->
  Writer.err w = None ->
  exists w1,
    Writer.run (late_callW (length (Writer.calls w)) p) w = Ok w1 /\
    Writer.calls w1 !! length (Writer.calls w)
      = Some (Writer.Returned p (len p) None) /\
    Writer.buffer w1 = Writer.buffer w ++ p /\
    sink_calls (Writer.trace w1) = sink_calls (Writer.trace w) /\
    Writer.notify w1 = true.
Proof.
  intros Hpc He. unfold late_callW.
  set (i := length (Writer.calls w)).
  assert (Hl : forall c : Writer.call, (Writer.calls w ++ [c]) !! i = Some c).
  { intros c. by apply list_lookup_middle. }
  assert (Hins : forall c c1 : Writer.call,
            <[i := c1]> (Writer.calls w ++ [c]) = Writer.calls w ++ [c1]).
  { intros c c1. replace i with (length (Writer.calls w) + 0)%nat by (unfold i; lia).
    by rewrite insert_app_r. }
  simpl. rewrite Hl. simpl. rewrite Hins, Hl. simpl. rewrite Hins.
  unfold Writer.flusher. simpl. rewrite Hpc. simpl.
  rewrite fmap_app. simpl.
  assert (Hi : i = length (Writer.wake <$> Writer.calls w))
    by (by rewrite length_fmap).
  rewrite (list_lookup_middle _ [] _ _ Hi). simpl. rewrite He. simpl.
  eexists. split; [done|]. simpl.
  split.
  - apply list_lookup_insert_eq. rewrite length_app, length_fmap. simpl.
    unfold i. lia.
  - split; [done|]. rewrite sink_calls_app. simpl. by rewrite app_nil_r.
Qed.

(** ** The further properties on concrete runs *)

(** A call is parked, [Close] is called and the flusher takes the quit
    branch of its [select]; a second call then parks as well, and nothing
    is written. *)
Lemma Writer_exit_strands_waiters_witness :
  exists w,
    Writer.run
      [Writer.Call writer_test.smallData; Writer.Go 0; Writer.Go 0;
       Writer.DoClose; Writer.DoFlusher Writer.RecvQuit]%nat
      (Writer.NewWriter (writer_test.cw None) 100 32) = Ok w /\
    Writer.calls w = [Writer.Waiting writer_test.smallData] /\
    exists w1,
      Writer.run [Writer.Call writer_test.bigData; Writer.Go 1; Writer.Go 1]%nat w
        = Ok w1 /\
      Writer.flusher_pc w1 = Writer.Exited /\
      sink_calls (Writer.trace w1) = sink_calls (Writer.trace w) /\
      forall i p,
        Writer.calls w !! i = Some (Writer.Waiting p) ->
        Writer.calls w1 !! i = Some (Writer.Waiting p).
Proof.
  eexists. split; [vm_compute; reflexivity|]. split; [reflexivity|].
  eexists. split; [vm_compute; reflexivity|].
  apply Writer_exit_strands_waiters
    with (sched := [Writer.Call writer_test.bigData; Writer.Go 1; Writer.Go 1]%nat).
  - reflexivity.
  - vm_compute. reflexivity.
Defined.


(** [Close] on a blocking [Writer] with three bytes buffered and a call
    parked. *)
Lemma Writer_Close_does_not_flush_witness :
  exists w,
    Writer.run [Writer.Call writer_test.smallData; Writer.Go 0; Writer.Go 0]%nat
      (Writer.NewWriter (scripted []) 100 32) = Ok w /\
    exists w1,
      Writer.Close w = Ok (None, w1) /\
      Writer.buffer w1 = writer_test.smallData /\
      sink_calls (Writer.trace w1) = [] /\
      Writer.calls w1 = [Writer.Waiting writer_test.smallData] /\
      Writer.Close w1 = Panic.
Proof.
  eexists. split; [vm_compute; reflexivity|]. eexists.
  match goal with
  | |- ?C = Ok (None, ?w1) /\ _ =>
      assert (HC : C = Ok (None, w1)) by (vm_compute; reflexivity)
  end.
  split; [exact HC|].
  destruct (Writer_Close_does_not_flush _ _ _ HC) as (Hb & Hs & Hc & _ & _ & Hp & _).
  split; [exact Hb|]. split; [exact Hs|]. split; [exact Hc|]. exact Hp.
Defined.

(** After a write and a [Close], the sink has been closed once. *)
Lemma sink_closed_at_most_once_witness :
  (exists w,
     Writer.run (lone_writeW 0 writer_test.smallData ++ [Writer.DoClose])
       (Writer.NewWriter (scripted []) 100 32) = Ok w /\
     (sink_closes (Writer.trace w) <= 1)%nat) /\
  (exists w,
     DeadlineBufWriter.run
       [DeadlineBufWriter.DoWrite writer_test.smallData; DeadlineBufWriter.DoClose]
       (DeadlineBufWriter.NewDeadlineBufWriter (scripted []) 100 32) = Ok w /\
     (sink_closes (DeadlineBufWriter.trace w) <= 1)%nat).
Proof.
  destruct (sink_closed_at_most_once (scripted []) 100 32) as [HW HD].
  split.
  - eexists. split; [vm_compute; reflexivity|].
    apply (HW (lone_writeW 0 writer_test.smallData ++ [Writer.DoClose])).
    vm_compute. reflexivity.
  - eexists. split; [vm_compute; reflexivity|].
    apply (HD [DeadlineBufWriter.DoWrite writer_test.smallData;
               DeadlineBufWriter.DoClose]).
    vm_compute. reflexivity.
Defined.


(** A parked call and an idle flusher: the trigger is pending. *)
Lemma Writer_no_lost_wakeup_witness :
  exists w,
    Writer.run [Writer.Call writer_test.smallData; Writer.Go 0; Writer.Go 0]%nat
      (Writer.NewWriter (writer_test.cw None) 100 32) = Ok w /\
    Writer.calls w !! 0%nat = Some (Writer.Waiting writer_test.smallData) /\
    Writer.flusher_pc w = Writer.AtSelect /\
    Writer.notify w = true.
Proof.
  eexists. split; [vm_compute; reflexivity|].
  split; [reflexivity|]. split; [reflexivity|].
  apply (Writer_no_lost_wakeup (writer_test.cw None) 100 32
           [Writer.Call writer_test.smallData; Writer.Go 0; Writer.Go 0]%nat
           _ 0%nat writer_test.smallData);
    [vm_compute; reflexivity|reflexivity|reflexivity].
Defined.

(** Three calls are parked and the flusher has flushed, but it has not
    broadcast: none of them has returned. *)
Lemma Writer_no_return_without_broadcast_witness :
  Forall (fun a => no_broadcast a = true) three_parkedW /\
  exists w,
    Writer.run three_parkedW (Writer.NewWriter (writer_test.cw None) 100 32) = Ok w /\
    forall i p n r,
      Writer.calls w !! i = Some (Writer.Returned p n r) ->
      Writer.calls (Writer.NewWriter (writer_test.cw None) 100 32) !! i
        = Some (Writer.Returned p n r) \/
      Writer.calls (Writer.NewWriter (writer_test.cw None) 100 32) !! i
        = Some (Writer.Woken p).
Proof.
  assert (Hq : Forall (fun a => no_broadcast a = true) three_parkedW)
    by (repeat constructor).
  split; [exact Hq|].
  eexists. split; [vm_compute; reflexivity|].
  intros i p n r.
  apply (Writer_no_return_without_broadcast _ _ three_parkedW i p n r Hq).
  vm_compute. reflexivity.
Defined.

(** After the failed flush of [TestReportError], [w.err] stays set while a
    second call goes through its flush, and that call returns the error. *)
Lemma Writer_error_is_sticky_witness :
  exists w,
    Writer.run (lone_writeW 0 ["a"%byte])
      (Writer.NewWriter (scripted [(0, Some writer_test.Neh)]) 100 32) = Ok w /\
    is_Some (Writer.err w) /\
    exists w1,
      Writer.run ([Writer.Call ["b"%byte]; Writer.Go 1; Writer.Go 1] ++ cycleW)%nat w
        = Ok w1 /\
      is_Some (Writer.err w1) /\
      forall i p w2,
        Writer.calls w1 !! i = Some (Writer.Woken p) ->
        Writer.step (Writer.Go i) w1 = Ok w2 ->
        exists e, Writer.calls w2 !! i = Some (Writer.Returned p 0 (Some e)).
Proof.
  eexists. split; [vm_compute; reflexivity|].
  assert (He : forall (e : error), is_Some (Some e)) by (intros e; by exists e).
  split; [apply He|].
  match goal with
  | |- exists w1, Writer.run ?s ?w = Ok w1 /\ _ =>
      eexists; split; [vm_compute; reflexivity|];
      apply (Writer_error_is_sticky w _ s); [apply He|vm_compute; reflexivity]
  end.
Defined.


(** The results of [TestReportError] and [TestReportErrorD] acknowledge
    nothing; those of a working sink acknowledge everything. *)
Lemma Write_all_or_nothing_witness :
  (exists w1,
     DeadlineBufWriter.Write writer_test.bigData
       (DeadlineBufWriter.NewDeadlineBufWriter
          (writer_test.cw (Some writer_test.Neh)) 100 32)
     = Ok (0, Some ErrShortWrite, w1) /\
     all_or_nothing writer_test.bigData 0 (Some ErrShortWrite)) /\
  (exists w,
     Writer.run (lone_writeW 0 writer_test.smallData)
       (Writer.NewWriter (writer_test.cw None) 100 32) = Ok w /\
     Writer.calls w = [Writer.Returned writer_test.smallData 3 None] /\
     all_or_nothing writer_test.smallData 3 None).
Proof.
  destruct (Write_all_or_nothing (writer_test.cw None) 100 32) as [_ HW].
  destruct (Write_all_or_nothing (writer_test.cw (Some writer_test.Neh)) 100 32)
    as [HD _].
  split.
  - eexists.
    match goal with
    | |- ?C = Ok (?n, ?r, ?w1) /\ _ =>
        assert (HC : C = Ok (n, r, w1)) by (vm_compute; reflexivity)
    end.
    split; [exact HC|]. exact (HD _ _ _ _ _ HC).
  - eexists. split; [vm_compute; reflexivity|].
    match goal with
    | |- Writer.calls ?w = _ /\ _ =>
        split; [reflexivity|];
        apply (HW (lone_writeW 0 writer_test.smallData) w 0%nat);
          [vm_compute; reflexivity|reflexivity]
    end.
Defined.


(** [TestBatchSmallWrites] and [TestBatchSmallWritesD]: after the flush,
    [cw.nWrites] is 1. *)
Lemma countingWriter_counts_sink_calls_witness :
  (exists w,
     Writer.run (five_writesW ++ [Writer.DoFlusher Writer.Flush])
       (Writer.NewWriter (writer_test.cw None) 100 32) = Ok w /\
     length (sink_calls (Writer.trace w)) = 1%nat /\
     writer_test.nWrites (io_state (Writer.writer w))
     = Z.of_nat (length (sink_calls (Writer.trace w))) mod 2 ^ 64) /\
  (exists w,
     DeadlineBufWriter.run (five_writesD ++ [DeadlineBufWriter.DoClose])
       (DeadlineBufWriter.NewDeadlineBufWriter (writer_test.cw None) 100 32) = Ok w /\
     length (sink_calls (DeadlineBufWriter.trace w)) = 1%nat /\
     writer_test.nWrites (io_state (DeadlineBufWriter.writer w))
     = Z.of_nat (length (sink_calls (DeadlineBufWriter.trace w))) mod 2 ^ 64).
Proof.
  destruct (countingWriter_counts_sink_calls 100 32) as [HW HD].
  split.
  - eexists. split; [vm_compute; reflexivity|]. split; [reflexivity|].
    apply (HW (five_writesW ++ [Writer.DoFlusher Writer.Flush])).
    vm_compute. reflexivity.
  - eexists. split; [vm_compute; reflexivity|]. split; [reflexivity|].
    apply (HD (five_writesD ++ [DeadlineBufWriter.DoClose])).
    vm_compute. reflexivity.
Defined.

(** The accessors after the runs of the tests. *)
Lemma configuration_is_constant_witness :
  (exists w,
     Writer.run (five_writesW ++ [Writer.DoFlusher Writer.Flush; Writer.DoClose])
       (Writer.NewWriter (writer_test.cw None) 100 32) = Ok w /\
     Writer.Timeout w = 100 /\ Writer.MaxSize w = 32) /\
  (exists w,
     DeadlineBufWriter.run (five_writesD ++ [DeadlineBufWriter.DoClose])
       (DeadlineBufWriter.NewDeadlineBufWriter (writer_test.cw None) 100 32) = Ok w /\
     DeadlineBufWriter.timeout w = 100 /\ DeadlineBufWriter.maxSize w = 32).
Proof.
  destruct (configuration_is_constant (writer_test.cw None) 100 32) as [HW HD].
  split.
  - eexists. split; [vm_compute; reflexivity|].
    apply (HW (five_writesW ++ [Writer.DoFlusher Writer.Flush; Writer.DoClose])).
    vm_compute. reflexivity.
  - eexists. split; [vm_compute; reflexivity|].
    apply (HD (five_writesD ++ [DeadlineBufWriter.DoClose])).
    vm_compute. reflexivity.
Defined.


(** The errors of [TestReportErrorD] and [TestReportError]. *)
Lemma Write_errors_come_from_the_sink_witness :
  (exists w w1,
     DeadlineBufWriter.run
       ([DeadlineBufWriter.DoWrite writer_test.smallData] ++ cycleD ++
        [DeadlineBufWriter.DoFlusher DeadlineBufWriter.Send])
       (DeadlineBufWriter.NewDeadlineBufWriter
          (writer_test.cw (Some writer_test.Neh)) 100 32) = Ok w /\
     DeadlineBufWriter.Write writer_test.smallData w
       = Ok (0, Some ErrShortWrite, w1) /\
     from_sink ErrShortWrite (DeadlineBufWriter.trace w1)) /\
  (exists w,
     Writer.run (lone_writeW 0 writer_test.smallData)
       (Writer.NewWriter (writer_test.cw (Some writer_test.Neh)) 100 32) = Ok w /\
     Writer.calls w !! 0%nat
       = Some (Writer.Returned writer_test.smallData 0 (Some writer_test.Neh)) /\
     from_sink writer_test.Neh (Writer.trace w)).
Proof.
  destruct (Write_errors_come_from_the_sink
              (writer_test.cw (Some writer_test.Neh)) 100 32) as [HD HW].
  split.
  - eexists. eexists.
    split; [vm_compute; reflexivity|].
    match goal with
    | |- DeadlineBufWriter.Write ?p ?w = Ok (?n, Some ?e, ?w1) /\ _ =>
        assert (HC : DeadlineBufWriter.Write p w = Ok (n, Some e, w1))
          by (vm_compute; reflexivity);
        split; [exact HC|];
        apply (HD ([DeadlineBufWriter.DoWrite writer_test.smallData] ++ cycleD ++
                   [DeadlineBufWriter.DoFlusher DeadlineBufWriter.Send]) w p n e w1);
          [vm_compute; reflexivity|exact HC]
    end.
  - eexists. split; [vm_compute; reflexivity|].
    match goal with
    | |- Writer.calls ?w !! _ = _ /\ _ =>
        split; [reflexivity|];
        apply (HW (lone_writeW 0 writer_test.smallData) w 0%nat
                  writer_test.smallData 0);
          [vm_compute; reflexivity|reflexivity]
    end.
Defined.

(** Thirty-two bytes are buffered, the thirty-third flushes inline. *)
Lemma Deadline_buffer_is_bounded_witness :
  exists w,
    DeadlineBufWriter.run
      [DeadlineBufWriter.DoWrite (repeat "x"%byte 32)]
      (DeadlineBufWriter.NewDeadlineBufWriter (writer_test.cw None) 100 32) = Ok w /\
    len (DeadlineBufWriter.buffer w) = 32 /\
    len (DeadlineBufWriter.buffer w) <= Z.max 0 32.
Proof.
  eexists. split; [vm_compute; reflexivity|]. split; [reflexivity|].
  apply (Deadline_buffer_is_bounded (writer_test.cw None) 100 32
           [DeadlineBufWriter.DoWrite (repeat "x"%byte 32)]).
  vm_compute. reflexivity.
Defined.

(** The first call has been flushed; a second call arrives before the
    broadcast and returns [(1, nil)] with its byte still buffered. *)
Lemma Writer_Write_can_return_before_its_flush_witness :
  exists w,
    Writer.run
      [Writer.Call ["a"%byte]; Writer.Go 0; Writer.Go 0;
       Writer.DoFlusher Writer.Recv; Writer.DoFlusher Writer.SizeCheck;
       Writer.DoFlusher Writer.Wake; Writer.DoFlusher Writer.Flush]%nat
      (Writer.NewWriter (writer_test.cw None) 100 32) = Ok w /\
    exists w1,
      Writer.run (late_callW (length (Writer.calls w)) ["b"%byte]) w = Ok w1 /\
      Writer.calls w1 !! length (Writer.calls w)
        = Some (Writer.Returned ["b"%byte] (len ["b"%byte]) None) /\
      Writer.buffer w1 = Writer.buffer w ++ ["b"%byte] /\
      sink_calls (Writer.trace w1) = sink_calls (Writer.trace w) /\
      Writer.notify w1 = true.
Proof.
  eexists. split; [vm_compute; reflexivity|].
  apply Writer_Write_can_return_before_its_flush; reflexivity.
Defined.
